(** * blockchain_starter: a hash-linked ledger and a toy lending pool

    A shallow embedding of [app.py] (the basic variant: blocks carrying an
    opaque payload) and [defi.py] (the extended variant: transactions,
    proof of work, balances, and a lending pool), with the properties the
    specification states about them.

    Conventions of the embedding.
    - Python [int]s are [Z]; the amounts and timestamps of the programs are
      integers ([int(time.time())], [100], [50]).
    - Python [str]s are [string]s, read as the bytes [str.encode()] yields.
    - [time.time()] and the identity of a freshly allocated object are inputs
      of the operation that reads them.
    - [print] is modelled by returning the printed line where a property
      speaks about it, and dropped elsewhere.
    - A [while] loop with no bound runs on fuel and returns [None] when the
      fuel is spent. *)

From Stdlib Require Import ZArith Lia Ascii String.
From stdpp Require Import base option list strings gmap.
From Stdlib Require DecimalString HexadecimalString.

Local Open Scope Z_scope.

(** ** [hashlib.sha256(...).hexdigest()] (FIPS 180-4) *)

Module SHA256.

Definition mask32 : Z := 0xffffffff.
Definition w32 (x : Z) : Z := Z.land x mask32.
Definition add32 (x y : Z) : Z := w32 (x + y).
Definition rotr (n x : Z) : Z :=
  w32 (Z.lor (Z.shiftr x n) (Z.shiftl x (32 - n))).
Definition shr (n x : Z) : Z := Z.shiftr x n.
Definition not32 (x : Z) : Z := Z.lxor x mask32.

Definition Ch (x y z : Z) : Z :=
  Z.lxor (Z.land x y) (Z.land (not32 x) z).
Definition Maj (x y z : Z) : Z :=
  Z.lxor (Z.lxor (Z.land x y) (Z.land x z)) (Z.land y z).
Definition bsig0 (x : Z) : Z :=
  Z.lxor (Z.lxor (rotr 2 x) (rotr 13 x)) (rotr 22 x).
Definition bsig1 (x : Z) : Z :=
  Z.lxor (Z.lxor (rotr 6 x) (rotr 11 x)) (rotr 25 x).
Definition ssig0 (x : Z) : Z :=
  Z.lxor (Z.lxor (rotr 7 x) (rotr 18 x)) (shr 3 x).
Definition ssig1 (x : Z) : Z :=
  Z.lxor (Z.lxor (rotr 17 x) (rotr 19 x)) (shr 10 x).

(** The round constants, four to a row. *)
Definition K : list Z :=
     [0x428a2f98; 0x71374491; 0xb5c0fbcf; 0xe9b5dba5]
  ++ [0x3956c25b; 0x59f111f1; 0x923f82a4; 0xab1c5ed5]
  ++ [0xd807aa98; 0x12835b01; 0x243185be; 0x550c7dc3]
  ++ [0x72be5d74; 0x80deb1fe; 0x9bdc06a7; 0xc19bf174]
  ++ [0xe49b69c1; 0xefbe4786; 0x0fc19dc6; 0x240ca1cc]
  ++ [0x2de92c6f; 0x4a7484aa; 0x5cb0a9dc; 0x76f988da]
  ++ [0x983e5152; 0xa831c66d; 0xb00327c8; 0xbf597fc7]
  ++ [0xc6e00bf3; 0xd5a79147; 0x06ca6351; 0x14292967]
  ++ [0x27b70a85; 0x2e1b2138; 0x4d2c6dfc; 0x53380d13]
  ++ [0x650a7354; 0x766a0abb; 0x81c2c92e; 0x92722c85]
  ++ [0xa2bfe8a1; 0xa81a664b; 0xc24b8b70; 0xc76c51a3]
  ++ [0xd192e819; 0xd6990624; 0xf40e3585; 0x106aa070]
  ++ [0x19a4c116; 0x1e376c08; 0x2748774c; 0x34b0bcb5]
  ++ [0x391c0cb3; 0x4ed8aa4a; 0x5b9cca4f; 0x682e6ff3]
  ++ [0x748f82ee; 0x78a5636f; 0x84c87814; 0x8cc70208]
  ++ [0x90befffa; 0xa4506ceb; 0xbef9a3f7; 0xc67178f2].

(** The eight working variables, also the chaining value. *)
Record regs : Type := Regs {
  ra : Z; rb : Z; rc : Z; rd : Z; re : Z; rf : Z; rg : Z; rh : Z }.

Definition H0 : regs :=
  Regs 0x6a09e667 0xbb67ae85 0x3c6ef372 0xa54ff53a
       0x510e527f 0x9b05688c 0x1f83d9ab 0x5be0cd19.

(** Where the constants come from: the first 32 bits of the fractional parts
    of the cube roots (for [K]) and of the square roots (for [H0]) of the
    first primes. *)
Definition is_prime (n : nat) : bool :=
  forallb (fun d => negb (Nat.eqb (n mod d) 0)) (seq 2 (n - 2)).

Definition first_primes : list Z := Z.of_nat <$> List.filter is_prime (seq 2 310).

Fixpoint cube_root_from (bit : nat) (x r : Z) : Z :=
  match bit with
  | O => r
  | S bit' =>
      let r' := r + 2 ^ Z.of_nat bit' in
      if r' * r' * r' <=? x then cube_root_from bit' x r' else cube_root_from bit' x r
  end.

Definition frac_cube_root (p : Z) : Z := w32 (cube_root_from 40 (p * 2 ^ 96) 0).
Definition frac_square_root (p : Z) : Z := w32 (Z.sqrt (p * 2 ^ 64)).

Lemma constants_from_primes :
  K = frac_cube_root <$> first_primes
  ∧ [ra H0; rb H0; rc H0; rd H0; re H0; rf H0; rg H0; rh H0]
    = frac_square_root <$> take 8 first_primes.
Proof. split; vm_compute; reflexivity. Qed.

(** Message padding: a [0x80] byte, zero bytes up to 56 modulo 64, and the
    bit length on eight bytes, most significant first. *)
Definition be_bytes (n : nat) (x : Z) : list Z :=
  (fun i => Z.land (Z.shiftr x (8 * Z.of_nat i)) 0xff) <$> rev (seq 0 n).

Definition pad (msg : list Z) : list Z :=
  let n := Z.of_nat (length msg) in
  msg ++ [0x80] ++ replicate (Z.to_nat ((55 - n) mod 64)) 0 ++ be_bytes 8 (8 * n).

Fixpoint words (bs : list Z) : list Z :=
  match bs with
  | b0 :: b1 :: b2 :: b3 :: rest =>
      Z.lor (Z.shiftl b0 24) (Z.lor (Z.shiftl b1 16) (Z.lor (Z.shiftl b2 8) b3))
      :: words rest
  | _ => []
  end.

(** The message schedule, kept most recent word first while it grows. *)
Fixpoint extend (n : nat) (rw : list Z) : list Z :=
  match n with
  | O => rw
  | S n' =>
      let w := add32 (add32 (ssig1 (rw !!! 1%nat)) (rw !!! 6%nat))
                     (add32 (ssig0 (rw !!! 14%nat)) (rw !!! 15%nat)) in
      extend n' (w :: rw)
  end.

Definition schedule (block : list Z) : list Z := rev (extend 48 (rev block)).

Definition round (s : regs) (kw : Z * Z) : regs :=
  let t1 := add32 (add32 (add32 (rh s) (bsig1 (re s))) (Ch (re s) (rf s) (rg s)))
                  (add32 kw.1 kw.2) in
  let t2 := add32 (bsig0 (ra s)) (Maj (ra s) (rb s) (rc s)) in
  Regs (add32 t1 t2) (ra s) (rb s) (rc s) (add32 (rd s) t1) (re s) (rf s) (rg s).

Definition compress (h : regs) (block : list Z) : regs :=
  let s := foldl round h (zip K (schedule block)) in
  Regs (add32 (ra h) (ra s)) (add32 (rb h) (rb s)) (add32 (rc h) (rc s))
       (add32 (rd h) (rd s)) (add32 (re h) (re s)) (add32 (rf h) (rf s))
       (add32 (rg h) (rg s)) (add32 (rh h) (rh s)).

Fixpoint blocks (n : nat) (h : regs) (ws : list Z) : regs :=
  match n with
  | O => h
  | S n' => blocks n' (compress h (take 16 ws)) (drop 16 ws)
  end.

Definition digest (msg : list Z) : regs :=
  let ws := words (pad msg) in
  blocks (length ws / 16)%nat H0 ws.

Definition hex_digit (x : Z) : ascii :=
  match String.get (Z.to_nat (Z.land x 0xf)) "0123456789abcdef" with
  | Some c => c
  | None => "0"%char
  end.

Definition hex8 (w : Z) (tail : string) : string :=
  String (hex_digit (Z.shiftr w 28)) (String (hex_digit (Z.shiftr w 24))
 (String (hex_digit (Z.shiftr w 20)) (String (hex_digit (Z.shiftr w 16))
 (String (hex_digit (Z.shiftr w 12)) (String (hex_digit (Z.shiftr w 8))
 (String (hex_digit (Z.shiftr w 4)) (String (hex_digit w) tail))))))).

Definition hex_of_regs (h : regs) : string :=
  hex8 (ra h) (hex8 (rb h) (hex8 (rc h) (hex8 (rd h)
 (hex8 (re h) (hex8 (rf h) (hex8 (rg h) (hex8 (rh h) ""))))))).

Definition bytes_of_string (s : string) : list Z :=
  (fun c => Z.of_N (Ascii.N_of_ascii c)) <$> list_ascii_of_string s.

(** [hashlib.sha256(value.encode()).hexdigest()] *)
Definition hexdigest (value : string) : string :=
  hex_of_regs (digest (bytes_of_string value)).

Lemma hexdigest_length (value : string) : String.length (hexdigest value) = 64%nat.
Proof. reflexivity. Qed.

End SHA256.

(** Proof search never unfolds the hash function; evaluation does. *)
Opaque SHA256.hexdigest.

(** ** The Python primitives the two programs use *)

Module Py.

(** [str(n)] for an [int]. *)
Definition str_int (n : Z) : string :=
  DecimalString.NilZero.string_of_int (Z.to_int n).

(** [s[:n]]: the first [n] characters, or all but the last [-n] when [n]
    is negative. *)
Definition slice_to (s : string) (n : Z) : string :=
  if 0 <=? n then String.substring 0 (Z.to_nat n) s
  else String.substring 0 (String.length s - Z.to_nat (- n)) s.

(** [s * n]: [n] copies of [s], none when [n <= 0]. *)
Definition str_mul (s : string) (n : Z) : string :=
  String.concat "" (replicate (Z.to_nat n) s).

(** [object.__repr__] of an instance of a class [cls] of the script that
    defines no [__repr__]: the class name qualified by the module the script
    runs as, and the object's address in hexadecimal. *)
Definition object_repr (cls : string) (id : N) : string :=
  "<__main__." +:+ cls +:+ " object at 0x"
    +:+ HexadecimalString.NilZero.string_of_uint (N.to_hex_uint id) +:+ ">".

(** [str(l)] for a list, from the [repr] of its elements. *)
Definition str_list (reprs : list string) : string :=
  "[" +:+ String.concat ", " reprs +:+ "]".

End Py.

(** ** [app.py]: the basic variant *)

Module Basic.

Record Block : Type := mkBlock {
  index : Z;
  previous_hash : string;
  timestamp : Z;
  data : string;
  hash : string }.

(** [Block.calculate_hash] *)
Definition calculate_hash
    (index : Z) (previous_hash : string) (timestamp : Z) (data : string) : string :=
  let value := Py.str_int index +:+ previous_hash +:+ Py.str_int timestamp +:+ data in
  SHA256.hexdigest value.

(** [add_block] assigns to fields of the block it is handed, and the caller
    keeps that block: blocks live in a store of objects and the chain holds
    references to them. *)
Abbreviation loc := nat (only parsing).

Record world : Type := mkWorld {
  heap : gmap nat Block;
  chain : list nat }.

(** [Blockchain.create_genesis_block] *)
Definition create_genesis_block (now : Z) : Block :=
  mkBlock 0 "0" now "Genesis Block" "0".

(** [Blockchain()], the genesis block being allocated at [g]. *)
Definition init (g : loc) (now : Z) : world :=
  {| heap := {[ g := create_genesis_block now ]}; chain := [g] |}.

(** [Block(index, previous_hash, timestamp, data, hash)] evaluated by a
    caller, the new object being allocated at [r]. *)
Definition new_Block (w : world) (r : loc) (b : Block) : world :=
  {| heap := <[r := b]> (heap w); chain := chain w |}.

(** [Blockchain.get_latest_block]: [self.chain[-1]], which raises on an
    empty list. *)
Definition get_latest_block (w : world) : option Block :=
  r ← last (chain w); heap w !! r.

(** [Blockchain.add_block] *)
Definition add_block (w : world) (new_block : loc) : option world :=
  latest ← get_latest_block w;
  b ← heap w !! new_block;
  let b1 := mkBlock (index b) (hash latest) (timestamp b) (data b) (hash b) in
  let b2 := mkBlock (index b1) (previous_hash b1) (timestamp b1) (data b1)
              (calculate_hash (index b1) (previous_hash b1) (timestamp b1) (data b1)) in
  Some {| heap := <[new_block := b2]> (heap w); chain := chain w ++ [new_block] |}.

(** One turn of the loop of [is_chain_valid]: [Some false] is the early
    [return False]. *)
Definition check_pair (h : gmap nat Block) (previous current : loc) : option bool :=
  current_block ← h !! current;
  previous_block ← h !! previous;
  if negb (String.eqb (hash current_block)
             (calculate_hash (index current_block) (previous_hash current_block)
                (timestamp current_block) (data current_block)))
  then Some false
  else if negb (String.eqb (previous_hash current_block) (hash previous_block))
  then Some false
  else Some true.

Fixpoint valid_from (h : gmap nat Block) (previous : loc) (rest : list loc) : option bool :=
  match rest with
  | [] => Some true
  | current :: rest' =>
      match check_pair h previous current with
      | Some true => valid_from h current rest'
      | verdict => verdict
      end
  end.

(** [Blockchain.is_chain_valid]: [for i in range(1, len(self.chain))]. *)
Definition is_chain_valid (w : world) : option bool :=
  match chain w with
  | [] => Some true
  | g :: rest => valid_from (heap w) g rest
  end.

(** The states a caller reaches from [Blockchain()] by constructing blocks
    and handing them to [add_block]; [ok w r] restricts which block may be
    handed over in state [w]. *)
Inductive reach (ok : world → loc → Prop) : world → Prop :=
| reach_init g now : reach ok (init g now)
| reach_new w r b :
    reach ok w → heap w !! r = None → reach ok (new_Block w r b)
| reach_add w r w' :
    reach ok w → ok w r → add_block w r = Some w' → reach ok w'.

(** Any block object at all. *)
Definition any_block (w : world) (r : loc) : Prop := True.
(** A block object that is not on the chain yet. *)
Definition off_chain (w : world) (r : loc) : Prop := r ∉ chain w.
(** ... and whose [index] is the position it will be appended at. *)
Definition off_chain_indexed (w : world) (r : loc) : Prop :=
  (r ∉ chain w) ∧ ∀ b, heap w !! r = Some b → index b = Z.of_nat (length (chain w)).

(** The structural invariant of the specification, on the store. *)
Definition linked (w : world) : Prop :=
  ∀ i p c pb cb,
    chain w !! i = Some p → chain w !! (S i) = Some c →
    heap w !! p = Some pb → heap w !! c = Some cb →
    previous_hash cb = hash pb.
Definition indexed (w : world) : Prop :=
  ∀ i r b, chain w !! i = Some r → heap w !! r = Some b → index b = Z.of_nat i.
Definition allocated (w : world) : Prop :=
  ∀ r, r ∈ chain w → is_Some (heap w !! r).
Definition structural_invariant (w : world) : Prop :=
  chain w ≠ [] ∧ allocated w ∧ linked w ∧ indexed w.

End Basic.

(** ** [defi.py]: the extended variant *)

Module Defi.

(** A [Transaction] object. [sender] is [None] in a reward transaction;
    [tx_id] is the identity of the object ([id(self)]), which
    [str(block.transactions)] shows because the class defines no
    [__repr__]. *)
Record Transaction : Type := mkTransaction {
  tx_id : N;
  sender : option string;
  recipient : string;
  amount : Z }.

Record Block : Type := mkBlock {
  index : Z;
  previous_hash : string;
  timestamp : Z;
  transactions : list Transaction;
  proof : Z;
  hash : string }.

(** [str(self.transactions)] *)
Definition str_transactions (txs : list Transaction) : string :=
  Py.str_list ((fun t => Py.object_repr "Transaction" (tx_id t)) <$> txs).

(** The digest [calculate_hash] computes from the five fields it reads. *)
Definition digest_of (index : Z) (previous_hash : string) (timestamp : Z)
    (transactions : list Transaction) (proof : Z) : string :=
  let value := Py.str_int index +:+ previous_hash +:+ Py.str_int timestamp
               +:+ str_transactions transactions +:+ Py.str_int proof in
  SHA256.hexdigest value.

(** [Block.calculate_hash] *)
Definition calculate_hash (self : Block) : string :=
  digest_of (index self) (previous_hash self) (timestamp self)
    (transactions self) (proof self).

(** [Block.__init__]: [self.hash = hash or self.calculate_hash()], where
    [None] and the empty string are the falsy values of [hash]. *)
Definition new_Block (index : Z) (previous_hash : string) (timestamp : Z)
    (transactions : list Transaction) (proof : Z) (hash : option string) : Block :=
  let h := match hash with
           | Some s => if String.eqb s "" then None else Some s
           | None => None
           end in
  mkBlock index previous_hash timestamp transactions proof
    (default (digest_of index previous_hash timestamp transactions proof) h).

(** [self.proof += 1] *)
Definition bump (self : Block) : Block :=
  mkBlock (index self) (previous_hash self) (timestamp self) (transactions self)
    (proof self + 1) (hash self).

(** The test of the mining loop, negated:
    [h[:difficulty] == '0' * difficulty]. *)
Definition meets (difficulty : Z) (h : string) : bool :=
  String.eqb (Py.slice_to h difficulty) (Py.str_mul "0" difficulty).

(** [Block.mine_block]: the loop runs at most [fuel] tests of its
    condition. *)
Fixpoint mine_block (fuel : nat) (difficulty : Z) (self : Block) : option Block :=
  match fuel with
  | O => None
  | S fuel' =>
      if meets difficulty (calculate_hash self) then Some self
      else mine_block fuel' difficulty (bump self)
  end.

Record Blockchain : Type := mkBlockchain {
  chain : list Block;
  pending_transactions : list Transaction;
  mining_reward : Z;
  difficulty : Z }.

(** [Blockchain.create_genesis_block] *)
Definition create_genesis_block (now : Z) : Block :=
  new_Block 0 "0" now [] 0 None.

(** [Blockchain()] *)
Definition init (now : Z) : Blockchain :=
  mkBlockchain [create_genesis_block now] [] 50 2.

(** [Blockchain.get_latest_block] *)
Definition get_latest_block (self : Blockchain) : option Block :=
  last (chain self).

(** [Blockchain.add_transaction] *)
Definition add_transaction (self : Blockchain) (transaction : Transaction) : Blockchain :=
  mkBlockchain (chain self) (pending_transactions self ++ [transaction])
    (mining_reward self) (difficulty self).

(** [Blockchain.mine_pending_transactions]. The reward transaction is
    allocated at [reward_id] and the clock reads [now]. *)
Definition mine_pending_transactions (fuel : nat) (self : Blockchain)
    (miner_address : string) (reward_id : N) (now : Z) : option Blockchain :=
  let reward_transaction :=
    mkTransaction reward_id None miner_address (mining_reward self) in
  let pending := pending_transactions self ++ [reward_transaction] in
  latest ← get_latest_block self;
  let block := new_Block (Z.of_nat (length (chain self))) (hash latest) now pending 0 None in
  block ← mine_block fuel (difficulty self) block;
  Some (mkBlockchain (chain self ++ [block]) [] (mining_reward self) (difficulty self)).

(** One turn of the loop of [is_chain_valid]. *)
Definition check_pair (previous_block current_block : Block) : bool :=
  if negb (String.eqb (hash current_block) (calculate_hash current_block)) then false
  else if negb (String.eqb (previous_hash current_block) (hash previous_block)) then false
  else true.

Fixpoint valid_from (previous_block : Block) (rest : list Block) : bool :=
  match rest with
  | [] => true
  | current_block :: rest' =>
      if check_pair previous_block current_block
      then valid_from current_block rest' else false
  end.

(** [Blockchain.is_chain_valid] *)
Definition is_chain_valid (self : Blockchain) : bool :=
  match chain self with
  | [] => true
  | g :: rest => valid_from g rest
  end.

(** [Blockchain.proof_of_work]: [block.proof = 0], the loop of [mine_block]
    at the ledger's difficulty, and [return block.proof]; the block is
    returned with the value because the caller's object is the one
    assigned to. *)
Definition proof_of_work (fuel : nat) (self : Blockchain) (block : Block)
    : option (Block * Z) :=
  let block := mkBlock (index block) (previous_hash block) (timestamp block)
                 (transactions block) 0 (hash block) in
  block ← mine_block fuel (difficulty self) block;
  Some (block, proof block).

(** The body of the inner loop of [get_balance_of_address]. *)
Definition apply_transaction (address : string) (balance : Z) (trans : Transaction) : Z :=
  let balance :=
    if String.eqb (recipient trans) address then balance + amount trans else balance in
  if bool_decide (sender trans = Some address) then balance - amount trans else balance.

(** [Blockchain.get_balance_of_address] *)
Definition get_balance_of_address (self : Blockchain) (address : string) : Z :=
  foldl (fun balance block => foldl (apply_transaction address) balance (transactions block))
    0 (chain self).

(** The states reached from [Blockchain()] by [add_transaction] and
    [mine_pending_transactions]. *)
Inductive reachable : Blockchain → Prop :=
| reach_init now : reachable (init now)
| reach_add_transaction bc tx :
    reachable bc → reachable (add_transaction bc tx)
| reach_mine bc fuel miner reward_id now bc' :
    reachable bc →
    mine_pending_transactions fuel bc miner reward_id now = Some bc' →
    reachable bc'.

(** The structural invariant of the specification. *)
Definition linked (bc : Blockchain) : Prop :=
  ∀ i pb cb, chain bc !! i = Some pb → chain bc !! (S i) = Some cb →
             previous_hash cb = hash pb.
Definition indexed (bc : Blockchain) : Prop :=
  ∀ i b, chain bc !! i = Some b → index b = Z.of_nat i.
Definition structural_invariant (bc : Blockchain) : Prop :=
  chain bc ≠ [] ∧ linked bc ∧ indexed bc.

(** *** The lending pool *)

Record LendingPool : Type := mkLendingPool { liquidity_pool : Z }.

(** [LendingPool()] *)
Definition new_LendingPool : LendingPool := mkLendingPool 0.

(** [LendingPool.deposit], with the line it prints. *)
Definition deposit (self : LendingPool) (amount : Z) : LendingPool * string :=
  (mkLendingPool (liquidity_pool self + amount),
   "Deposit of " +:+ Py.str_int amount +:+ " made to the lending pool.").

(** [LendingPool.borrow], with the line it prints. *)
Definition borrow (self : LendingPool) (amount : Z) : LendingPool * string :=
  if amount <=? liquidity_pool self then
    (mkLendingPool (liquidity_pool self - amount),
     "Borrow of " +:+ Py.str_int amount +:+ " made from the lending pool.")
  else (self, "Insufficient funds in the lending pool.").

End Defi.

(** * Properties *)

(** ** The lending pool *)

Module PoolFacts.
Import Defi.

(** A call on a lending pool. *)
Inductive call : Type :=
| Deposit (amount : Z)
| Borrow (amount : Z).

Definition call_amount (c : call) : Z :=
  match c with Deposit a | Borrow a => a end.

Definition exec (pool : LendingPool) (c : call) : LendingPool :=
  match c with
  | Deposit a => (deposit pool a).1
  | Borrow a => (borrow pool a).1
  end.

(** The pool after each call of a sequence, in order. *)
Fixpoint history (pool : LendingPool) (calls : list call) : list LendingPool :=
  match calls with
  | [] => []
  | c :: calls' => let pool' := exec pool c in pool' :: history pool' calls'
  end.

Lemma exec_nonneg pool c :
  0 ≤ liquidity_pool pool → 0 ≤ call_amount c → 0 ≤ liquidity_pool (exec pool c).
Proof.
  intros Hpool Hc. destruct c as [a|a]; cbn in *; [lia|].
  unfold borrow. destruct (Z.leb_spec a (liquidity_pool pool)); cbn; lia.
Qed.

Lemma history_nonneg calls : ∀ pool,
  0 ≤ liquidity_pool pool →
  Forall (λ c, 0 ≤ call_amount c) calls →
  Forall (λ p, 0 ≤ liquidity_pool p) (history pool calls).
Proof.
  induction calls as [|c calls IH]; intros pool Hpool Hcalls; cbn.
  - constructor.
  - inversion Hcalls as [|? ? Hc Hrest]; subst.
    pose proof (exec_nonneg pool c Hpool Hc) as Hnext.
    constructor; [exact Hnext | by apply IH].
Qed.

(** C8. [borrow(amount)] takes [amount] off the pool exactly when
    [amount] is at most the pool, and otherwise leaves the pool as it is
    and prints that the funds are insufficient, raising nothing. After
    [deposit(1000)] and [borrow(500)] the pool holds 500, and [borrow(600)]
    then fails and leaves 500. *)
Theorem borrow_guarded (pool : LendingPool) (amount : Z) :
  (amount ≤ liquidity_pool pool ↔
     (borrow pool amount).2 = "Borrow of " +:+ Py.str_int amount
                               +:+ " made from the lending pool.")
  ∧ (amount ≤ liquidity_pool pool →
     liquidity_pool (borrow pool amount).1 = liquidity_pool pool - amount)
  ∧ (liquidity_pool pool < amount →
     borrow pool amount = (pool, "Insufficient funds in the lending pool."))
  ∧ (let p1 := (deposit new_LendingPool 1000).1 in
     let p2 := (borrow p1 500).1 in
     liquidity_pool p1 = 1000 ∧ liquidity_pool p2 = 500
     ∧ borrow p2 600 = (p2, "Insufficient funds in the lending pool.")).
Proof.
  unfold borrow.
  destruct (Z.leb_spec amount (liquidity_pool pool)) as [Hle|Hgt]; cbn [fst snd].
  - repeat split; try done; lia.
  - repeat split; try done; lia.
Qed.

(** C10. A pool starts at 0, and along any sequence of [deposit] and
    [borrow] calls with non-negative amounts it is non-negative after
    every call. *)
Theorem pool_never_negative (calls : list call) :
  Forall (λ c, 0 ≤ call_amount c) calls →
  liquidity_pool new_LendingPool = 0
  ∧ Forall (λ p, 0 ≤ liquidity_pool p) (history new_LendingPool calls).
Proof.
  intros Hcalls. split; [reflexivity|].
  apply history_nonneg; [cbn; lia | exact Hcalls].
Qed.

Lemma pool_never_negative_witness :
  Forall (λ p, 0 ≤ liquidity_pool p)
    (history new_LendingPool [Deposit 1000; Borrow 500; Borrow 600]).
Proof.
  refine (proj2 (pool_never_negative [Deposit 1000; Borrow 500; Borrow 600] _)).
  repeat constructor; cbn; lia.
Defined.

End PoolFacts.

(** ** Mining *)

Module MiningFacts.
Import Defi.

(** [self.proof = p] *)
Definition set_proof (self : Block) (p : Z) : Block :=
  mkBlock (index self) (previous_hash self) (timestamp self) (transactions self)
    p (hash self).

Lemma set_proof_same self : set_proof self (proof self) = self.
Proof. by destruct self. Qed.

Lemma bump_set_proof self k :
  set_proof (bump self) (proof (bump self) + k) = set_proof self (proof self + (1 + k)).
Proof. unfold set_proof, bump; cbn. f_equal. lia. Qed.

(** The first [true] of a boolean sequence, below a known one. *)
Lemma first_true (P : nat → bool) (m : nat) :
  P m = true → ∃ n, (n ≤ m)%nat ∧ P n = true ∧ ∀ k, (k < n)%nat → P k = false.
Proof.
  revert P. induction m as [|m IH]; intros P Hm.
  - exists 0%nat. split_and!; [lia | done | intros; lia].
  - destruct (P 0%nat) eqn:H0.
    + exists 0%nat. split_and!; [lia | done | intros; lia].
    + destruct (IH (λ k, P (S k)) Hm) as (n & Hle & Hn & Hlt).
      exists (S n). split_and!; [lia | done |].
      intros [|k] Hk; [done | apply Hlt; lia].
Qed.

(** The loop stops at the first proof that passes the test, as soon as the
    fuel covers the tests it makes. *)
Lemma mine_block_search (n : nat) : ∀ (self : Block) (d : Z) (fuel : nat),
  (∀ k, (k < n)%nat →
     meets d (calculate_hash (set_proof self (proof self + Z.of_nat k))) = false) →
  meets d (calculate_hash (set_proof self (proof self + Z.of_nat n))) = true →
  (n < fuel)%nat →
  mine_block fuel d self = Some (set_proof self (proof self + Z.of_nat n)).
Proof.
  induction n as [|n IH]; intros self d fuel Hbefore Hat Hfuel;
    (destruct fuel as [|fuel]; [lia|]); cbn [mine_block].
  - rewrite Z.add_0_r, set_proof_same in *. by rewrite Hat.
  - pose proof (Hbefore 0%nat ltac:(lia)) as H0.
    rewrite Z.add_0_r, set_proof_same in H0. rewrite H0.
    rewrite (IH (bump self) d fuel).
    + rewrite bump_set_proof. do 2 f_equal. lia.
    + intros k Hk. rewrite bump_set_proof.
      replace (1 + Z.of_nat k) with (Z.of_nat (S k)) by lia. apply Hbefore. lia.
    + rewrite bump_set_proof.
      by replace (1 + Z.of_nat n) with (Z.of_nat (S n)) by lia.
    + lia.
Qed.

(** Fuel never changes what a finished search returns. *)
Lemma mine_block_only_proof fuel : ∀ d self mined,
  mine_block fuel d self = Some mined →
  mined = set_proof self (proof mined) ∧ proof self ≤ proof mined
  ∧ meets d (calculate_hash mined) = true.
Proof.
  induction fuel as [|fuel IH]; intros d self mined Hrun; [done|].
  cbn [mine_block] in Hrun.
  destruct (meets d (calculate_hash self)) eqn:Hm.
  - injection Hrun as <-. by rewrite set_proof_same.
  - apply IH in Hrun as (Heq & Hle & Hok). split_and!; [|cbn in Hle; lia|done].
    rewrite Heq at 1. unfold set_proof, bump; by cbn.
Qed.

(** A difficulty of 0 asks nothing of the digest. *)
Lemma meets_zero h : meets 0 h = true.
Proof. unfold meets, Py.slice_to, Py.str_mul; cbn. by destruct h. Qed.

Lemma concat_zeros (n : nat) :
  String.concat "" (replicate (S n) "0") = String "0" (String.concat "" (replicate n "0")).
Proof. by destruct n. Qed.

(** For a difficulty [d >= 0] the test reads: the digest has at least [d]
    characters and its first [d] characters are all ['0']. *)
Lemma meets_leading_zeros (d : nat) : ∀ h : string,
  meets (Z.of_nat d) h = true ↔
  (d ≤ String.length h)%nat ∧ ∀ i, (i < d)%nat → String.get i h = Some "0"%char.
Proof.
  unfold meets, Py.slice_to, Py.str_mul.
  replace (0 <=? Z.of_nat d) with true by (symmetry; apply Z.leb_le; lia).
  rewrite Nat2Z.id.
  induction d as [|d IH]; intros h.
  - split; [intros _; split; [lia | intros; lia] | intros _; by destruct h].
  - rewrite concat_zeros. destruct h as [|c h]; cbn [String.substring String.length].
    + split; [done | intros [? _]; lia].
    + cbn [String.eqb]. destruct (Ascii.eqb_spec c "0"%char) as [->|Hc].
      * rewrite IH. split.
        -- intros [Hlen Hget]. split; [lia|].
           intros [|i] Hi; cbn; [done | apply Hget; lia].
        -- intros [Hlen Hget]. split; [lia|].
           intros i Hi. apply (Hget (S i)). lia.
      * split; [done|]. intros [_ Hget].
        specialize (Hget 0%nat ltac:(lia)). cbn in Hget. congruence.
Qed.

(** The search returns as soon as some proof at or above the starting one
    passes the test, with the least such proof. *)
Lemma mine_block_returns (self : Block) (d p : Z) :
  proof self ≤ p →
  meets d (calculate_hash (set_proof self p)) = true →
  ∃ (n : nat) (mined : Block),
    (∀ fuel, (n < fuel)%nat → mine_block fuel d self = Some mined)
    ∧ mined = set_proof self (proof self + Z.of_nat n)
    ∧ proof self + Z.of_nat n ≤ p
    ∧ meets d (calculate_hash mined) = true
    ∧ (∀ q, proof self ≤ q < proof self + Z.of_nat n →
         meets d (calculate_hash (set_proof self q)) = false).
Proof.
  intros Hle Hp.
  set (P := λ k : nat, meets d (calculate_hash (set_proof self (proof self + Z.of_nat k)))).
  destruct (first_true P (Z.to_nat (p - proof self))) as (n & Hn & Hat & Hbefore).
  { unfold P. by replace (proof self + Z.of_nat (Z.to_nat (p - proof self))) with p by lia. }
  exists n, (set_proof self (proof self + Z.of_nat n)). split_and!.
  - intros fuel Hfuel. by apply mine_block_search.
  - done.
  - lia.
  - exact Hat.
  - intros q Hq.
    replace q with (proof self + Z.of_nat (Z.to_nat (q - proof self))) by lia.
    apply Hbefore. lia.
Qed.

(** C3. If some proof at or above the block's starting proof gives a
    digest whose first [d] characters are all ['0'], [mine_block(d)]
    returns, and leaves [proof] at the smallest such integer at or above
    the starting value (non-negative when the start is), touching no other
    field; with [d = 0] the first test succeeds and [proof] is unchanged. *)
Theorem mine_block_least (self : Block) (d p : Z) :
  proof self ≤ p →
  meets d (calculate_hash (set_proof self p)) = true →
  ∃ (fuel : nat) (mined : Block),
    (∀ fuel', (fuel ≤ fuel')%nat → mine_block fuel' d self = Some mined)
    ∧ mined = set_proof self (proof mined)
    ∧ proof self ≤ proof mined ≤ p
    ∧ (0 ≤ proof self → 0 ≤ proof mined)
    ∧ meets d (calculate_hash mined) = true
    ∧ (∀ q, proof self ≤ q < proof mined →
         meets d (calculate_hash (set_proof self q)) = false)
    ∧ (d = 0 → mined = self ∧ mine_block 1 d self = Some self).
Proof.
  intros Hle Hp.
  destruct (mine_block_returns self d p Hle Hp)
    as (n & mined & Hrun & -> & Hn & Hat & Hbefore).
  exists (S n), (set_proof self (proof self + Z.of_nat n)).
  cbn [proof set_proof]. split_and!; [intros fuel' Hfuel; apply Hrun; lia | done | lia.. | done | done |].
  - intros ->. destruct n as [|n].
    + rewrite Z.add_0_r, set_proof_same. split; [done|].
      cbn [mine_block]. by rewrite meets_zero.
    + specialize (Hbefore (proof self) ltac:(lia)).
      by rewrite meets_zero in Hbefore.
Qed.

End MiningFacts.

(** ** Balances *)

Module BalanceFacts.
Import Defi MiningFacts.

Definition Zsum (l : list Z) : Z := foldr Z.add 0 l.

(** Every transaction of the chain, in chain order. *)
Definition all_transactions (bc : Blockchain) : list Transaction :=
  chain bc ≫= transactions.

(** The addresses that appear as the sender or the recipient of some
    transaction of the chain. *)
Definition parties (t : Transaction) : list string :=
  match sender t with Some s => [s; recipient t] | None => [recipient t] end.
Definition addresses (bc : Blockchain) : gset string :=
  list_to_set (all_transactions bc ≫= parties).

(** The amounts minted: those of the transactions whose sender is [None]. *)
Definition minted (bc : Blockchain) : Z :=
  Zsum (amount <$> filter (λ t, sender t = None) (all_transactions bc)).

(** What one transaction adds to the balance of [address]. *)
Definition delta (address : string) (t : Transaction) : Z :=
  (if String.eqb (recipient t) address then amount t else 0)
  - (if bool_decide (sender t = Some address) then amount t else 0).

Lemma Zsum_app l1 l2 : Zsum (l1 ++ l2) = Zsum l1 + Zsum l2.
Proof. unfold Zsum. induction l1 as [|x l1 IH]; cbn; [done | rewrite IH; lia]. Qed.

Lemma Zsum_cons x l : Zsum (x :: l) = x + Zsum l.
Proof. reflexivity. Qed.

Lemma apply_transaction_delta address balance t :
  apply_transaction address balance t = balance + delta address t.
Proof.
  unfold apply_transaction, delta.
  destruct (String.eqb _ _), (bool_decide _); lia.
Qed.

Lemma inner_loop_sum address txs : ∀ balance,
  foldl (apply_transaction address) balance txs
  = balance + Zsum (delta address <$> txs).
Proof.
  induction txs as [|t txs IH]; intros balance; [cbn; lia|].
  cbn [foldl]. rewrite fmap_cons, Zsum_cons, IH, apply_transaction_delta. lia.
Qed.

Lemma outer_loop_sum address blocks : ∀ balance,
  foldl (λ balance block,
           foldl (apply_transaction address) balance (transactions block))
    balance blocks
  = balance + Zsum (delta address <$> (blocks ≫= transactions)).
Proof.
  induction blocks as [|b blocks IH]; intros balance; [cbn; lia|].
  cbn [foldl]. rewrite bind_cons, fmap_app, Zsum_app, IH, inner_loop_sum. lia.
Qed.

Lemma balance_as_sum bc address :
  get_balance_of_address bc address
  = Zsum (delta address <$> all_transactions bc).
Proof. unfold get_balance_of_address. by rewrite outer_loop_sum. Qed.

(** Summing a value over the one place where a test holds. *)
Lemma Zsum_nowhere (f : string → bool) (v : Z) (A : list string) :
  (∀ a, a ∈ A → f a = false) → Zsum ((λ a, if f a then v else 0) <$> A) = 0.
Proof.
  induction A as [|a A IH]; intros Hf; [done|].
  rewrite fmap_cons, Zsum_cons, (Hf a) by set_solver.
  rewrite IH; [done|]. intros; apply Hf; set_solver.
Qed.

Lemma Zsum_once (f : string → bool) (x : string) (v : Z) (A : list string) :
  (∀ a, f a = true ↔ a = x) → NoDup A → x ∈ A →
  Zsum ((λ a, if f a then v else 0) <$> A) = v.
Proof.
  intros Hf. induction 1 as [|a A Hnotin Hnodup IH]; intros Hin; [set_solver|].
  rewrite fmap_cons, Zsum_cons. destruct (f a) eqn:Hfa.
  - apply Hf in Hfa as ->. rewrite Zsum_nowhere; [lia|].
    intros a Ha. destruct (f a) eqn:Hfa; [|done]. apply Hf in Hfa as ->. done.
  - rewrite IH; [lia|]. apply elem_of_cons in Hin as [->|Hin]; [|done].
    assert (f a = true) by by apply Hf. congruence.
Qed.

Lemma Zsum_pointwise_add {X} (f g : X → Z) (A : list X) :
  Zsum ((λ a, f a + g a) <$> A) = Zsum (f <$> A) + Zsum (g <$> A).
Proof.
  induction A as [|a A IH]; [done|]. rewrite !fmap_cons, !Zsum_cons, IH. lia.
Qed.

Lemma delta_total (t : Transaction) (A : list string) :
  NoDup A → (∀ a, a ∈ parties t → a ∈ A) →
  Zsum ((λ a, delta a t) <$> A) = if sender t is None then amount t else 0.
Proof.
  intros Hnodup Hin. unfold delta.
  transitivity
    (Zsum ((λ a, if String.eqb (recipient t) a then amount t else 0) <$> A)
     + Zsum ((λ a, if bool_decide (sender t = Some a) then - amount t else 0) <$> A)).
  { rewrite <- Zsum_pointwise_add. f_equal. apply list_fmap_ext.
    intros _ a _. destruct (bool_decide _); lia. }
  rewrite (Zsum_once _ (recipient t)); [|intros a; rewrite String.eqb_eq; naive_solver|done|].
  2:{ apply Hin. unfold parties. destruct (sender t); set_solver. }
  unfold parties in Hin. destruct (sender t) as [s|] eqn:Hs.
  - rewrite (Zsum_once _ s); [lia| |done|apply Hin; set_solver].
    intros a. rewrite bool_decide_eq_true. naive_solver.
  - rewrite Zsum_nowhere; [lia|]. intros a _. by rewrite bool_decide_eq_false.
Qed.

Lemma conservation_over (txs : list Transaction) (A : list string) :
  NoDup A → (∀ t a, t ∈ txs → a ∈ parties t → a ∈ A) →
  Zsum ((λ a, Zsum (delta a <$> txs)) <$> A)
  = Zsum (amount <$> filter (λ t, sender t = None) txs).
Proof.
  intros Hnodup. induction txs as [|t txs IH]; intros Hin.
  - rewrite filter_nil. clear. induction A as [|a A IH]; [done|].
    rewrite fmap_cons, Zsum_cons, IH. done.
  - erewrite list_fmap_ext; last by (intros; rewrite fmap_cons, Zsum_cons).
    rewrite Zsum_pointwise_add.
    rewrite delta_total; [|done|].
    2:{ intros a Ha. apply (Hin t a); [apply list_elem_of_here | done]. }
    rewrite IH.
    2:{ intros t' a Ht' Ha. apply (Hin t' a); [by apply list_elem_of_further | done]. }
    rewrite filter_cons. destruct (decide (sender t = None)) as [Hs|Hs].
    + rewrite Hs, fmap_cons, Zsum_cons. done.
    + destruct (sender t); [lia | done].
Qed.

(** C6. The balances of the addresses that appear as a sender or a
    recipient on the chain add up to the amounts of the transactions whose
    sender is [None]: transfers move value, only rewards create it. *)
Theorem balances_conserved (bc : Blockchain) :
  Zsum (get_balance_of_address bc <$> elements (addresses bc)) = minted bc.
Proof.
  unfold minted.
  rewrite <- (conservation_over (all_transactions bc) (elements (addresses bc))).
  - f_equal. apply list_fmap_ext. intros _ a _. apply balance_as_sum.
  - apply NoDup_elements.
  - intros t a Ht Ha. apply elem_of_elements, elem_of_list_to_set.
    apply list_elem_of_bind. eauto.
Qed.

End BalanceFacts.

(** ** The extended ledger *)

Module LedgerFacts.
Import Defi MiningFacts BalanceFacts.

Lemma mine_block_keeps_fields fuel d self mined :
  mine_block fuel d self = Some mined →
  index mined = index self ∧ previous_hash mined = previous_hash self
  ∧ transactions mined = transactions self ∧ hash mined = hash self.
Proof. intros Hrun. apply mine_block_only_proof in Hrun as (-> & _). done. Qed.

Lemma mine_pending_transactions_inv fuel bc miner reward_id now bc' :
  mine_pending_transactions fuel bc miner reward_id now = Some bc' →
  ∃ latest block,
    last (chain bc) = Some latest
    ∧ chain bc' = chain bc ++ [block]
    ∧ pending_transactions bc' = []
    ∧ mining_reward bc' = mining_reward bc ∧ difficulty bc' = difficulty bc
    ∧ index block = Z.of_nat (length (chain bc))
    ∧ previous_hash block = hash latest
    ∧ transactions block
      = pending_transactions bc ++ [mkTransaction reward_id None miner (mining_reward bc)].
Proof.
  unfold mine_pending_transactions, get_latest_block. intros Hrun.
  destruct (last (chain bc)) as [latest|] eqn:Hlast; [|done]. cbn in Hrun.
  destruct (mine_block _ _ _) as [block|] eqn:Hmine; [|done]. cbn in Hrun.
  injection Hrun as <-. apply mine_block_keeps_fields in Hmine as (Hi & Hp & Ht & _).
  exists latest, block. cbn. split_and!; done.
Qed.

(** Every reachable ledger has a genesis block, links each block to the
    stored hash of the one before it, and numbers blocks by position. *)
Lemma reachable_structure bc : reachable bc → structural_invariant bc.
Proof.
  induction 1 as [now | bc tx _ IH | bc fuel miner rid now bc' _ IH Hmine].
  - split_and!; [done | |].
    + intros [|i] pb cb Hp Hc; cbn in *; done.
    + intros [|i] b Hb; cbn in *; [by injection Hb as <- | done].
  - exact IH.
  - destruct IH as (Hne & Hlink & Hidx).
    apply mine_pending_transactions_inv in Hmine
      as (latest & block & Hlast & Hchain & _ & _ & _ & Hi & Hp & _).
    unfold structural_invariant, linked, indexed. rewrite Hchain. split_and!.
    + by destruct (chain bc).
    + intros i pb cb Hpb Hcb.
      apply lookup_snoc_Some in Hcb as [[Hlt Hcb]|[Hlen <-]].
      * rewrite lookup_app_l in Hpb by lia. by eapply Hlink.
      * rewrite lookup_app_l in Hpb by lia.
        rewrite last_lookup, <- Hlen in Hlast. cbn in Hlast. congruence.
    + intros i b Hb. apply lookup_snoc_Some in Hb as [[Hlt Hb]|[Hlen <-]].
      * by apply Hidx.
      * congruence.
Qed.

(** The ledger of the scenario: [Transaction("A","B",100)] and
    [Transaction("B","A",50)] submitted to a fresh ledger. *)
Definition scenario (t0 : Z) (idA idB : N) : Blockchain :=
  add_transaction
    (add_transaction (init t0) (mkTransaction idA (Some "A") "B" 100))
    (mkTransaction idB (Some "B") "A" 50).

(** C5. On a fresh ledger, after [Transaction("A","B",100)] and
    [Transaction("B","A",50)] are submitted and
    [mine_pending_transactions("M")] has returned (as it does once some
    proof passes the test), the balances of A, B and M are -50, 50 and 50,
    nothing is pending and the chain has two blocks. *)
Theorem scenario_after_mining (t0 t1 : Z) (idA idB idM : N) (p : Z) :
  0 ≤ p →
  meets 2 (digest_of 1 (hash (create_genesis_block t0)) t1
             [mkTransaction idA (Some "A") "B" 100;
              mkTransaction idB (Some "B") "A" 50;
              mkTransaction idM None "M" 50] p) = true →
  ∃ fuel : nat, ∀ fuel', (fuel ≤ fuel')%nat →
    ∃ bc, mine_pending_transactions fuel' (scenario t0 idA idB) "M" idM t1 = Some bc
          ∧ get_balance_of_address bc "A" = -50
          ∧ get_balance_of_address bc "B" = 50
          ∧ get_balance_of_address bc "M" = 50
          ∧ pending_transactions bc = []
          ∧ length (chain bc) = 2%nat.
Proof.
  intros Hp Hmeets.
  set (txs := [mkTransaction idA (Some "A") "B" 100;
               mkTransaction idB (Some "B") "A" 50;
               mkTransaction idM None "M" 50]) in *.
  set (block := new_Block 1 (hash (create_genesis_block t0)) t1 txs 0 None).
  destruct (mine_block_returns block 2 p) as (n & mined & Hrun & Hmined & _);
    [done | done |].
  exists (S n). intros fuel' Hfuel.
  exists (mkBlockchain [create_genesis_block t0; mined] [] 50 2).
  split.
  - unfold mine_pending_transactions, scenario. cbn -[mine_block new_Block create_genesis_block].
    fold txs. fold block. rewrite Hrun by lia. done.
  - rewrite !balance_as_sum. unfold all_transactions. cbn [chain].
    rewrite Hmined. done.
Qed.

End LedgerFacts.

(** ** The basic ledger *)

Module BasicFacts.
Import Basic.

(** What one turn of the validation loop accepts. *)
Definition good_pair (h : gmap nat Block) (previous current : loc) : Prop :=
  ∃ pb cb, h !! previous = Some pb ∧ h !! current = Some cb
           ∧ hash cb = calculate_hash (index cb) (previous_hash cb) (timestamp cb) (data cb)
           ∧ previous_hash cb = hash pb.

Fixpoint good_from (h : gmap nat Block) (previous : loc) (rest : list loc) : Prop :=
  match rest with
  | [] => True
  | current :: rest' => good_pair h previous current ∧ good_from h current rest'
  end.

Lemma check_pair_true h p c : check_pair h p c = Some true ↔ good_pair h p c.
Proof.
  unfold check_pair, good_pair. split.
  - destruct (h !! c) as [cb|]; [|done]. destruct (h !! p) as [pb|]; [|done]. cbn.
    destruct (String.eqb_spec (hash cb)
                (calculate_hash (index cb) (previous_hash cb) (timestamp cb) (data cb)));
      [|done].
    destruct (String.eqb_spec (previous_hash cb) (hash pb)); [|done].
    intros _. by exists pb, cb.
  - intros (pb & cb & -> & -> & Hh & Hp). cbn.
    rewrite <- Hh, Hp, !String.eqb_refl. done.
Qed.

Lemma valid_from_true h rest : ∀ p, valid_from h p rest = Some true ↔ good_from h p rest.
Proof.
  induction rest as [|c rest IH]; intros p; cbn; [done|].
  rewrite <- IH, <- check_pair_true.
  destruct (check_pair h p c) as [[|]|]; (split; [|intros [? ?]]; done).
Qed.

Lemma good_pair_agree h h' p c :
  h !! p = h' !! p → h !! c = h' !! c → good_pair h p c → good_pair h' p c.
Proof. unfold good_pair. by intros -> ->. Qed.

Lemma good_from_agree h h' rest : ∀ p,
  (∀ x, x ∈ p :: rest → h !! x = h' !! x) → good_from h p rest → good_from h' p rest.
Proof.
  induction rest as [|c rest IH]; intros p Hagree; cbn; [done|].
  intros [Hpair Hrest]. split.
  - eapply good_pair_agree; [apply Hagree.. | done].
    + apply list_elem_of_here.
    + apply list_elem_of_further, list_elem_of_here.
  - apply IH; [|done]. intros x Hx. by apply Hagree, list_elem_of_further.
Qed.

Lemma good_from_snoc h rest c : ∀ p l,
  last (p :: rest) = Some l →
  good_from h p rest → good_pair h l c → good_from h p (rest ++ [c]).
Proof.
  induction rest as [|c' rest IH]; intros p l Hlast Hgood Hpair; cbn in *.
  - by injection Hlast as ->.
  - destruct Hgood as [Hp Hrest]. split; [done|]. by eapply IH.
Qed.

Lemma good_from_linked h rest : ∀ g,
  good_from h g rest → linked {| heap := h; chain := g :: rest |}.
Proof.
  induction rest as [|c0 rest IH]; intros g Hgood i p c pb cb Hp Hc Hpb Hcb;
    cbn in *.
  - by destruct i.
  - destruct Hgood as [(pb' & cb' & Hpb' & Hcb' & _ & Hlink) Hrest].
    destruct i as [|i]; cbn in *.
    + injection Hp as <-. injection Hc as <-. congruence.
    + by eapply (IH c0 Hrest i p c).
Qed.

Lemma add_block_inv w r w' :
  add_block w r = Some w' →
  ∃ l latest b,
    last (chain w) = Some l ∧ heap w !! l = Some latest ∧ heap w !! r = Some b
    ∧ w' = {| heap := <[r := mkBlock (index b) (hash latest) (timestamp b) (data b)
                            (calculate_hash (index b) (hash latest) (timestamp b) (data b))]>
                        (heap w);
              chain := chain w ++ [r] |}.
Proof.
  unfold add_block, get_latest_block. intros Hrun.
  destruct (last (chain w)) as [l|] eqn:Hl; [|done]. cbn in Hrun.
  destruct (heap w !! l) as [latest|] eqn:Hlatest; [|done]. cbn in Hrun.
  destruct (heap w !! r) as [b|] eqn:Hb; [|done]. cbn in Hrun.
  injection Hrun as <-. by exists l, latest, b.
Qed.

(** [add_block] returns whenever the chain is in order and the block it is
    handed exists. *)
Lemma add_block_returns w r :
  chain w ≠ [] → allocated w → is_Some (heap w !! r) → is_Some (add_block w r).
Proof.
  intros Hne Halloc [b Hb]. unfold add_block, get_latest_block.
  destruct (last (chain w)) as [l|] eqn:Hl.
  - destruct (Halloc l) as [latest Hlatest]; [by eapply last_Some_elem_of|].
    cbn. rewrite Hlatest. cbn. rewrite Hb. cbn. done.
  - apply last_None in Hl. done.
Qed.

Lemma reach_mono (ok ok' : world → loc → Prop) w :
  (∀ w r, ok w r → ok' w r) → reach ok w → reach ok' w.
Proof.
  intros Hok. induction 1; [apply reach_init | by apply reach_new |].
  eapply reach_add; eauto.
Qed.

(** What holds of every chain whose blocks were each added once. *)
Definition in_order (w : world) : Prop :=
  allocated w ∧ ∃ g rest, chain w = g :: rest ∧ good_from (heap w) g rest.

Lemma off_chain_in_order w : reach off_chain w → in_order w.
Proof.
  induction 1 as [g now | w r b _ IH Hfresh | w r w' _ IH Hoff Hadd].
  - split; [|by exists g, []].
    intros r Hr. apply list_elem_of_singleton in Hr as ->. cbn.
    rewrite lookup_singleton_eq. done.
  - destruct IH as (Halloc & g & rest & Hchain & Hgood).
    assert (Hne : ∀ x, x ∈ chain w → x ≠ r).
    { intros x Hx ->. destruct (Halloc r Hx) as [? ?]. congruence. }
    split; [|exists g, rest; split; [done|]]; cbn.
    + intros x Hx. cbn in *.
      rewrite lookup_insert_ne by (intros ->; by eapply Hne). by apply Halloc.
    + eapply good_from_agree; [|done]. intros x Hx.
      rewrite lookup_insert_ne; [done|]. intros ->. eapply Hne; [|done]. by rewrite Hchain.
  - destruct IH as (Halloc & g & rest & Hchain & Hgood).
    apply add_block_inv in Hadd as (l & latest & b & Hl & Hlatest & Hb & ->).
    unfold off_chain in Hoff.
    assert (Hne : ∀ x, x ∈ chain w → x ≠ r) by (by intros x Hx ->).
    split; [|exists g, (rest ++ [r]); split; [by cbn; rewrite Hchain|]]; cbn.
    + intros x Hx. cbn in *. apply elem_of_app in Hx as [Hx|Hx].
      * rewrite lookup_insert_ne by (intros ->; by eapply Hne). by apply Halloc.
      * apply list_elem_of_singleton in Hx as ->. rewrite lookup_insert_eq. done.
    + eapply good_from_snoc.
      * by rewrite <- Hchain.
      * eapply good_from_agree; [|done]. intros x Hx.
        rewrite lookup_insert_ne; [done|]. intros ->. eapply Hne; [|done]. by rewrite Hchain.
      * eexists latest, _. split_and!.
        -- rewrite lookup_insert_ne; [done|]. intros ->.
           eapply Hne; [|done]. by eapply last_Some_elem_of.
        -- apply lookup_insert_eq.
        -- done.
        -- done.
Qed.

Lemma in_order_valid w : in_order w → is_chain_valid w = Some true.
Proof.
  intros (_ & g & rest & Hchain & Hgood). unfold is_chain_valid.
  rewrite Hchain. by apply valid_from_true.
Qed.

Lemma in_order_linked w : in_order w → chain w ≠ [] ∧ allocated w ∧ linked w.
Proof.
  intros (Halloc & g & rest & Hchain & Hgood). split_and!; [by rewrite Hchain | done |].
  apply good_from_linked in Hgood. destruct w as [h c]; cbn in *. by subst c.
Qed.

Lemma off_chain_indexed_numbers w : reach off_chain_indexed w → indexed w.
Proof.
  intros Hreach.
  assert (Hinv : reach off_chain_indexed w → allocated w ∧ indexed w); [|by apply Hinv].
  clear Hreach.
  induction 1 as [g now | w r b Hreach IH Hfresh | w r w' Hreach IH Hoff Hadd].
  - split.
    + intros r Hr. apply list_elem_of_singleton in Hr as ->. cbn.
      rewrite lookup_singleton_eq. done.
    + intros [|i] r b Hr Hb; cbn in *; [|done]. injection Hr as <-.
      rewrite lookup_singleton_eq in Hb. by injection Hb as <-.
  - destruct IH as [Halloc Hidx].
    assert (Hne : ∀ x, x ∈ chain w → x ≠ r).
    { intros x Hx ->. destruct (Halloc r Hx) as [? ?]. congruence. }
    split; cbn.
    + intros x Hx. cbn in *.
      rewrite lookup_insert_ne by (intros ->; by eapply Hne). by apply Halloc.
    + intros i x bx Hx Hbx. cbn in *.
      rewrite lookup_insert_ne in Hbx; [by eapply Hidx|].
      intros ->. eapply Hne; [|done]. by eapply list_elem_of_lookup_2.
  - destruct IH as [Halloc Hidx]. destruct Hoff as [Hoff Hpos].
    apply add_block_inv in Hadd as (l & latest & b & Hl & Hlatest & Hb & ->).
    assert (Hne : ∀ x, x ∈ chain w → x ≠ r) by (by intros x Hx ->).
    split; cbn.
    + intros x Hx. cbn in *. apply elem_of_app in Hx as [Hx|Hx].
      * rewrite lookup_insert_ne by (intros ->; by eapply Hne). by apply Halloc.
      * apply list_elem_of_singleton in Hx as ->. rewrite lookup_insert_eq. done.
    + intros i x bx Hx Hbx. cbn in *.
      apply lookup_snoc_Some in Hx as [[Hlt Hx]|[Hlen <-]].
      * rewrite lookup_insert_ne in Hbx; [by eapply Hidx|].
        intros ->. eapply Hne; [|done]. by eapply list_elem_of_lookup_2.
      * rewrite lookup_insert_eq in Hbx. injection Hbx as <-. cbn.
        rewrite Hlen. by apply Hpos.
Qed.

End BasicFacts.

(** ** Running the basic ledger on a script of calls *)

Module Script.
Import Basic BasicFacts.

(** What a caller does between [Blockchain()] and a query: construct a
    block, or hand a block to [add_block]. *)
Inductive call : Type :=
| New (r : loc) (b : Block)
| Add (r : loc).

(** One call, refused ([None]) when the allocator would reuse a live
    address, when the block handed over does not exist, or when [okb]
    rejects it. *)
Definition step (okb : world → loc → bool) (w : world) (c : call) : option world :=
  match c with
  | New r b => if heap w !! r is None then Some (new_Block w r b) else None
  | Add r => if okb w r then add_block w r else None
  end.

Definition run_from (okb : world → loc → bool) (w : world) (calls : list call) : option world :=
  foldl (λ ow c, ow ≫= λ w, step okb w c) (Some w) calls.

(** [Blockchain()] at time [now], genesis at [g], then the calls. *)
Definition run (okb : world → loc → bool) (g : loc) (now : Z) (calls : list call) : option world :=
  run_from okb (init g now) calls.

Definition any_blockb (w : world) (r : loc) : bool := true.
Definition off_chainb (w : world) (r : loc) : bool := bool_decide (r ∉ chain w).
Definition off_chain_indexedb (w : world) (r : loc) : bool :=
  bool_decide (r ∉ chain w)
  && match heap w !! r with
     | Some b => index b =? Z.of_nat (length (chain w))
     | None => true
     end.

Lemma run_refused okb calls :
  foldl (λ ow c, ow ≫= λ w, step okb w c) None calls = None.
Proof. by induction calls. Qed.

Lemma run_from_reach (ok : world → loc → Prop) (okb : world → loc → bool) :
  (∀ w r, okb w r = true → ok w r) →
  ∀ calls w w', reach ok w → run_from okb w calls = Some w' → reach ok w'.
Proof.
  intros Hok. unfold run_from.
  induction calls as [|c calls IH]; intros w w' Hw Hrun; cbn in Hrun.
  - by injection Hrun as <-.
  - destruct (step okb w c) as [w1|] eqn:Hstep.
    + apply (IH w1 w'); [|done]. destruct c as [r b|r]; cbn in Hstep.
      * destruct (heap w !! r) eqn:Hr; [done|]. injection Hstep as <-.
        by apply reach_new.
      * destruct (okb w r) eqn:Hb; [|done]. eapply reach_add; eauto.
    + by rewrite run_refused in Hrun.
Qed.

Lemma run_reach ok okb g now calls w :
  (∀ w r, okb w r = true → ok w r) → run okb g now calls = Some w → reach ok w.
Proof. intros Hok. apply run_from_reach; [done | apply reach_init]. Qed.

Lemma any_blockb_ok w r : any_blockb w r = true → any_block w r.
Proof. done. Qed.

Lemma off_chainb_ok w r : off_chainb w r = true → off_chain w r.
Proof. unfold off_chainb, off_chain. by rewrite bool_decide_eq_true. Qed.

Lemma off_chain_indexedb_ok w r : off_chain_indexedb w r = true → off_chain_indexed w r.
Proof.
  unfold off_chain_indexedb, off_chain_indexed.
  rewrite andb_true_iff, bool_decide_eq_true. intros [Hoff Hidx]. split; [done|].
  intros b Hb. rewrite Hb in Hidx. by apply Z.eqb_eq.
Qed.

(** The demonstration of [app.py]: two blocks numbered 1 and 2. *)
Definition demo : list call :=
  [ New 2 (mkBlock 1 "" 1700000001 "This is block 1" ""); Add 2;
    New 3 (mkBlock 2 "" 1700000002 "This is block 2" ""); Add 3 ].

(** One block object handed to [add_block] twice. *)
Definition added_twice : list call :=
  [ New 2 (mkBlock 1 "" 1700000001 "This is block 1" ""); Add 2; Add 2 ].

(** A block whose caller numbered it 7. *)
Definition numbered_seven : list call :=
  [ New 2 (mkBlock 7 "" 1700000001 "This is block 1" ""); Add 2 ].

End Script.

(** ** Chain validity and the structural invariant *)

Module Integrity.
Import BasicFacts Script.

(** The extended ledger after [Blockchain()] at 1700000000 and
    [mine_pending_transactions("M")] at 1700000061, the reward transaction
    living at 0x7f0000001000; the search stops at [proof = 2]. *)
Definition mined_once : option Defi.Blockchain :=
  Defi.mine_pending_transactions 3 (Defi.init 1700000000) "M"
    0x7f0000001000%N 1700000061.

Lemma mined_once_reachable bc : mined_once = Some bc → Defi.reachable bc.
Proof. intros Hrun. exact (Defi.reach_mine _ _ _ _ _ _ (Defi.reach_init _) Hrun). Qed.

(** C1, as the code has it. In the basic variant, a chain built from a
    fresh [Blockchain] by [add_block] calls that are each handed a block
    object not yet on the chain passes [is_chain_valid()]. *)
Theorem fresh_blocks_chain_valid (w : Basic.world) :
  Basic.reach Basic.off_chain w → Basic.is_chain_valid w = Some true.
Proof. intros Hreach. by apply in_order_valid, off_chain_in_order. Qed.

Lemma fresh_blocks_chain_valid_witness :
  run off_chainb 1 1700000000 demo ≫= Basic.is_chain_valid = Some true.
Proof.
  assert (is_Some (run off_chainb 1 1700000000 demo)) as [w Hrun]
    by (vm_compute; eexists; reflexivity).
  rewrite Hrun. cbn.
  apply (fresh_blocks_chain_valid w).
  exact (run_reach _ _ _ _ _ _ off_chainb_ok Hrun).
Defined.

(** C1 fails as stated in both variants: handing one block object to
    [add_block] twice, and mining one block on a fresh extended ledger, each
    give a chain that [is_chain_valid()] rejects. *)
Lemma documented_calls_break_validity :
  ¬ (∀ w, Basic.reach Basic.any_block w → Basic.is_chain_valid w = Some true)
  ∧ ¬ (∀ bc, Defi.reachable bc → Defi.is_chain_valid bc = true).
Proof.
  split; intros Hall.
  - assert (run any_blockb 1 1700000000 added_twice ≫= Basic.is_chain_valid
            = Some false) as Hfalse by (vm_compute; reflexivity).
    destruct (run any_blockb 1 1700000000 added_twice) as [w|] eqn:Hrun;
      [|discriminate Hfalse].
    pose proof (Hall w (run_reach _ _ _ _ _ _ any_blockb_ok Hrun)) as Hvalid.
    cbn in Hfalse. congruence.
  - assert (Defi.is_chain_valid <$> mined_once = Some false) as Hfalse
      by (vm_compute; reflexivity).
    destruct mined_once as [bc|] eqn:Hrun; [|discriminate Hfalse].
    pose proof (Hall bc (mined_once_reachable bc Hrun)) as Hvalid.
    cbn in Hfalse. congruence.
Qed.

(** C9, as the code has it. In the basic variant, while every block
    handed to [add_block] is an object not yet on the chain, the chain is
    non-empty and each block's [previous_hash] is the [hash] of the block
    before it; blocks are numbered by position as long as callers number
    them so. In the extended variant every ledger reached by
    [add_transaction] and [mine_pending_transactions] is non-empty, linked
    and numbered by position. *)
Theorem structure_of_reachable_chains :
  (∀ w, Basic.reach Basic.off_chain w →
        Basic.chain w ≠ [] ∧ Basic.allocated w ∧ Basic.linked w)
  ∧ (∀ w, Basic.reach Basic.off_chain_indexed w → Basic.structural_invariant w)
  ∧ (∀ bc, Defi.reachable bc → Defi.structural_invariant bc).
Proof.
  split_and!.
  - intros w Hreach. by apply in_order_linked, off_chain_in_order.
  - intros w Hreach.
    assert (Basic.reach Basic.off_chain w) as Hoff.
    { eapply reach_mono; [|done]. by intros ? ? [? _]. }
    apply off_chain_in_order, in_order_linked in Hoff as (? & ? & ?).
    split_and!; try done. by apply off_chain_indexed_numbers.
  - apply LedgerFacts.reachable_structure.
Qed.

Lemma structure_of_reachable_chains_witness :
  from_option Basic.structural_invariant False
    (run off_chain_indexedb 1 1700000000 demo)
  ∧ from_option Defi.structural_invariant False mined_once.
Proof.
  destruct structure_of_reachable_chains as (_ & Hbasic & Hext). split.
  - assert (is_Some (run off_chain_indexedb 1 1700000000 demo)) as [w Hrun]
      by (vm_compute; eexists; reflexivity).
    rewrite Hrun. cbn. apply Hbasic.
    exact (run_reach _ _ _ _ _ _ off_chain_indexedb_ok Hrun).
  - assert (is_Some mined_once) as [bc Hrun] by (vm_compute; eexists; reflexivity).
    rewrite Hrun. cbn. apply Hext. exact (mined_once_reachable bc Hrun).
Defined.

(** C9 fails as stated: [add_block] keeps whatever [index] the caller gave
    the block, and a block handed over twice is linked to itself. *)
Lemma add_block_breaks_structure :
  ¬ (∀ w, Basic.reach Basic.any_block w → Basic.indexed w)
  ∧ ¬ (∀ w, Basic.reach Basic.any_block w → Basic.linked w).
Proof.
  split; intros Hall.
  - assert ((w ← run any_blockb 1 1700000000 numbered_seven;
             r ← Basic.chain w !! 1%nat;
             b ← Basic.heap w !! r;
             Some (Basic.index b)) = Some 7) as Hseven by (vm_compute; reflexivity).
    destruct (run any_blockb 1 1700000000 numbered_seven) as [w|] eqn:Hrun;
      [|discriminate Hseven].
    pose proof (Hall w (run_reach _ _ _ _ _ _ any_blockb_ok Hrun)) as Hidx.
    cbn in Hseven.
    destruct (Basic.chain w !! 1%nat) as [r|] eqn:Hr; [|discriminate Hseven].
    cbn in Hseven.
    destruct (Basic.heap w !! r) as [b|] eqn:Hb; [|discriminate Hseven].
    cbn in Hseven. injection Hseven as Hseven.
    specialize (Hidx 1%nat r b Hr Hb). lia.
  - assert ((w ← run any_blockb 1 1700000000 added_twice;
             p ← Basic.chain w !! 0%nat;
             c ← Basic.chain w !! 1%nat;
             pb ← Basic.heap w !! p;
             cb ← Basic.heap w !! c;
             Some (String.eqb (Basic.previous_hash cb) (Basic.hash pb)))
            = Some false) as Hself by (vm_compute; reflexivity).
    destruct (run any_blockb 1 1700000000 added_twice) as [w|] eqn:Hrun;
      [|discriminate Hself].
    pose proof (Hall w (run_reach _ _ _ _ _ _ any_blockb_ok Hrun)) as Hlink.
    cbn in Hself.
    destruct (Basic.chain w !! 0%nat) as [p|] eqn:Hp; [|discriminate Hself].
    cbn in Hself.
    destruct (Basic.chain w !! 1%nat) as [c|] eqn:Hc; [|discriminate Hself].
    cbn in Hself.
    destruct (Basic.heap w !! p) as [pb|] eqn:Hpb; [|discriminate Hself].
    cbn in Hself.
    destruct (Basic.heap w !! c) as [cb|] eqn:Hcb; [|discriminate Hself].
    cbn in Hself. injection Hself as Hself.
    apply String.eqb_neq in Hself. apply Hself.
    exact (Hlink 0%nat p c pb cb Hp Hc Hpb Hcb).
Qed.

End Integrity.

(** ** The genesis block, stored hashes and digests *)

Module HashFacts.
Import MiningFacts.

(** C4, as the code has it. In the basic variant [create_genesis_block()]
    returns a block with index 0, [previous_hash] ["0"], the payload
    ["Genesis Block"], and the literal ["0"] as its [hash], which is not the
    digest of its fields. *)
Theorem basic_genesis_block (now : Z) :
  let g := Basic.create_genesis_block now in
  Basic.index g = 0 ∧ Basic.previous_hash g = "0" ∧ Basic.timestamp g = now
  ∧ Basic.data g = "Genesis Block" ∧ Basic.hash g = "0"
  ∧ Basic.hash g ≠ Basic.calculate_hash (Basic.index g) (Basic.previous_hash g)
                     (Basic.timestamp g) (Basic.data g).
Proof.
  cbv zeta. unfold Basic.create_genesis_block.
  cbn [Basic.index Basic.previous_hash Basic.timestamp Basic.data Basic.hash].
  split_and!; [reflexivity..|]. intros Heq.
  apply (f_equal String.length) in Heq. unfold Basic.calculate_hash in Heq.
  rewrite SHA256.hexdigest_length in Heq. discriminate Heq.
Qed.

(** C4 fails as stated: the genesis block's [hash] is not the digest of its
    own fields. *)
Lemma basic_genesis_hash_not_digest :
  ¬ (let g := Basic.create_genesis_block 1700000000 in
     Basic.index g = 0 ∧ Basic.previous_hash g = "0"
     ∧ Basic.data g = "Genesis Block"
     ∧ Basic.hash g = Basic.calculate_hash (Basic.index g) (Basic.previous_hash g)
                        (Basic.timestamp g) (Basic.data g)).
Proof.
  intros (_ & _ & _ & Heq). revert Heq.
  apply String.eqb_neq. vm_compute. reflexivity.
Qed.

(** The block [mine_pending_transactions("M")] builds on a fresh ledger
    created at 1700000000, at time 1700000061, its reward transaction
    living at 0x7f0000001000. *)
Definition candidate : Defi.Block :=
  Defi.new_Block 1 (Defi.hash (Defi.create_genesis_block 1700000000)) 1700000061
    [Defi.mkTransaction 0x7f0000001000%N None "M" 50] 0 None.

(** [mine_block] never assigns to [hash]. *)
Lemma mine_block_keeps_hash fuel d self mined :
  Defi.mine_block fuel d self = Some mined → Defi.hash mined = Defi.hash self.
Proof. intros Hrun. by apply LedgerFacts.mine_block_keeps_fields in Hrun as (_ & _ & _ & ?). Qed.

Lemma candidate_mined :
  (mined ← Defi.mine_block 3 2 candidate;
   Some (Defi.proof mined,
         String.eqb (Defi.hash mined) (Defi.calculate_hash mined),
         Defi.meets 2 (Defi.hash mined),
         Defi.meets 2 (Defi.calculate_hash mined)))
  = Some (2, false, false, true).
Proof. vm_compute. reflexivity. Qed.

(** C2 at that block: [mine_block(2)] returns with [proof = 2] and the
    [hash] the block was constructed with, which is neither the digest of
    the block's fields nor one that starts with ["00"]. *)
Lemma mine_block_leaves_hash_stale :
  ∃ mined,
    Defi.mine_block 3 2 candidate = Some mined
    ∧ Defi.proof mined = 2
    ∧ Defi.hash mined = Defi.hash candidate
    ∧ Defi.hash mined ≠ Defi.calculate_hash mined
    ∧ Defi.meets 2 (Defi.hash mined) = false
    ∧ Defi.meets 2 (Defi.calculate_hash mined) = true.
Proof.
  pose proof candidate_mined as Hrun.
  destruct (Defi.mine_block 3 2 candidate) as [mined|] eqn:Hmine; [|discriminate Hrun].
  cbn [mbind option_bind] in Hrun. injection Hrun as Hproof Hstale Hstored Hfresh.
  exists mined. split_and!.
  - reflexivity.
  - exact Hproof.
  - exact (mine_block_keeps_hash _ _ _ _ Hmine).
  - apply String.eqb_neq. exact Hstale.
  - exact Hstored.
  - exact Hfresh.
Qed.

Lemma mine_block_least_witness :
  ∃ (fuel : nat) (mined : Defi.Block),
    (∀ fuel', (fuel ≤ fuel')%nat → Defi.mine_block fuel' 2 candidate = Some mined)
    ∧ Defi.proof candidate ≤ Defi.proof mined ≤ 2.
Proof.
  assert (Defi.proof candidate ≤ 2) as Hle by (apply Z.leb_le; vm_compute; reflexivity).
  assert (Defi.meets 2 (Defi.calculate_hash (set_proof candidate 2)) = true) as Hat
    by (vm_compute; reflexivity).
  destruct (mine_block_least candidate 2 2 Hle Hat)
    as (fuel & mined & Hrun & _ & Hbounds & _).
  exists fuel, mined. split; [exact Hrun | exact Hbounds].
Defined.

(** The digest reads the transactions of a block through their identities
    alone. *)
Lemma digest_reads_identities index previous_hash timestamp txs1 txs2 proof :
  Defi.tx_id <$> txs1 = Defi.tx_id <$> txs2 →
  Defi.digest_of index previous_hash timestamp txs1 proof
  = Defi.digest_of index previous_hash timestamp txs2 proof.
Proof.
  intros Hids. unfold Defi.digest_of, Defi.str_transactions.
  rewrite !(list_fmap_compose Defi.tx_id (Py.object_repr "Transaction")).
  by rewrite Hids.
Qed.

(** C7 at two blocks that differ only in where their one transaction
    [Transaction("A","B",100)] lives: the digests have 64 characters each
    and differ; and a transaction with another amount at the same place
    gives the same digest. *)
Lemma digest_not_canonical :
  let tx1 := Defi.mkTransaction 0x7f0000001000%N (Some "A") "B" 100 in
  let tx2 := Defi.mkTransaction 0x7f0000002000%N (Some "A") "B" 100 in
  let tx3 := Defi.mkTransaction 0x7f0000001000%N (Some "A") "B" 999 in
  String.length (Defi.digest_of 1 "0" 1700000061 [tx1] 0) = 64%nat
  ∧ String.length (Defi.digest_of 1 "0" 1700000061 [tx2] 0) = 64%nat
  ∧ Defi.digest_of 1 "0" 1700000061 [tx1] 0 ≠ Defi.digest_of 1 "0" 1700000061 [tx2] 0
  ∧ Defi.digest_of 1 "0" 1700000061 [tx1] 0 = Defi.digest_of 1 "0" 1700000061 [tx3] 0.
Proof.
  cbv zeta. split_and!.
  - apply SHA256.hexdigest_length.
  - apply SHA256.hexdigest_length.
  - apply String.eqb_neq. vm_compute. reflexivity.
  - apply digest_reads_identities. reflexivity.
Qed.

Lemma scenario_after_mining_witness :
  ∃ fuel : nat, ∀ fuel', (fuel ≤ fuel')%nat →
    ∃ bc, Defi.mine_pending_transactions fuel'
            (LedgerFacts.scenario 1700000000 0x7f0000001000%N 0x7f0000001040%N)
            "M" 0x7f0000001080%N 1700000011 = Some bc
          ∧ Defi.get_balance_of_address bc "A" = -50
          ∧ Defi.get_balance_of_address bc "B" = 50
          ∧ Defi.get_balance_of_address bc "M" = 50
          ∧ Defi.pending_transactions bc = []
          ∧ length (Defi.chain bc) = 2%nat.
Proof.
  assert (0 ≤ 2) as Hp by lia.
  assert (Defi.meets 2
            (Defi.digest_of 1 (Defi.hash (Defi.create_genesis_block 1700000000))
               1700000011
               [Defi.mkTransaction 0x7f0000001000%N (Some "A") "B" 100;
                Defi.mkTransaction 0x7f0000001040%N (Some "B") "A" 50;
                Defi.mkTransaction 0x7f0000001080%N None "M" 50] 2) = true) as Hat
    by (vm_compute; reflexivity).
  exact (LedgerFacts.scenario_after_mining 1700000000 1700000011
           0x7f0000001000%N 0x7f0000001040%N 0x7f0000001080%N 2 Hp Hat).
Defined.

End HashFacts.

(** * Further properties of the code *)

(** ** [app.py]: validation, tampering and what [add_block] reads *)

Module BasicMore.
Import Basic BasicFacts Script.

Lemma good_from_pairs h rest : ∀ g,
  good_from h g rest ↔
  ∀ i p c, (g :: rest) !! i = Some p → (g :: rest) !! (S i) = Some c → good_pair h p c.
Proof.
  induction rest as [|c0 rest IH]; intros g; cbn [good_from].
  - split; [|done]. intros _ [|i] p c Hp Hc; done.
  - rewrite IH. split.
    + intros [Hfirst Hrest] [|i] p c Hp Hc.
      * injection Hp as <-. by injection Hc as <-.
      * by apply (Hrest i).
    + intros Hall. split; [by apply (Hall 0%nat)|].
      intros i p c Hp Hc. by apply (Hall (S i)).
Qed.

(** X1. [is_chain_valid()] returns [True] exactly when every block after the
    first has a [hash] equal to the digest of its own fields and a
    [previous_hash] equal to the [hash] of the block before it. *)
Theorem is_chain_valid_true_iff (w : world) :
  is_chain_valid w = Some true ↔
  ∀ i p c, chain w !! i = Some p → chain w !! (S i) = Some c →
    ∃ pb cb, heap w !! p = Some pb ∧ heap w !! c = Some cb
             ∧ hash cb = calculate_hash (index cb) (previous_hash cb) (timestamp cb) (data cb)
             ∧ previous_hash cb = hash pb.
Proof.
  unfold is_chain_valid. destruct (chain w) as [|g rest].
  - split; [|done]. intros _ i p c Hp; done.
  - rewrite valid_from_true. apply good_from_pairs.
Qed.

Lemma check_pair_returns h p c :
  is_Some (h !! p) → is_Some (h !! c) → is_Some (check_pair h p c).
Proof.
  intros [pb Hpb] [cb Hcb]. unfold check_pair. rewrite Hcb, Hpb. cbn.
  destruct (negb _); [done|]. by destruct (negb _).
Qed.

Lemma valid_from_returns h rest : ∀ p,
  (∀ x, x ∈ p :: rest → is_Some (h !! x)) → is_Some (valid_from h p rest).
Proof.
  induction rest as [|c rest IH]; intros p Halloc; cbn; [done|].
  destruct (check_pair_returns h p c) as [v Hv].
  { apply Halloc, list_elem_of_here. }
  { apply Halloc, list_elem_of_further, list_elem_of_here. }
  rewrite Hv. destruct v; [|done].
  apply IH. intros x Hx. by apply Halloc, list_elem_of_further.
Qed.

Lemma reach_nonempty_allocated w :
  reach any_block w → chain w ≠ [] ∧ allocated w.
Proof.
  induction 1 as [g now | w r b _ IH Hfresh | w r w' _ IH _ Hadd].
  - split; [done|]. intros r Hr. apply list_elem_of_singleton in Hr as ->. cbn.
    rewrite lookup_singleton_eq. done.
  - destruct IH as [Hne Halloc]. split; [done|]. intros x Hx. cbn in *.
    destruct (decide (r = x)) as [->|Hrx]; [by rewrite lookup_insert_eq|].
    rewrite lookup_insert_ne by done. by apply Halloc.
  - destruct IH as [Hne Halloc].
    apply add_block_inv in Hadd as (l & latest & b & Hl & Hlatest & Hb & ->). cbn.
    split; [by destruct (chain w)|]. intros x Hx. cbn in *.
    destruct (decide (r = x)) as [->|Hrx]; [by rewrite lookup_insert_eq|].
    rewrite lookup_insert_ne by done. apply Halloc.
    apply elem_of_app in Hx as [Hx|Hx]; [done|].
    apply list_elem_of_singleton in Hx. congruence.
Qed.

(** X2. Whatever blocks a caller hands to [add_block], even one already on the
    chain, the chain stays non-empty and holds only live objects, so
    [get_latest_block()] and [is_chain_valid()] never raise and [add_block]
    accepts every existing block. *)
Theorem basic_calls_never_raise (w : world) :
  reach any_block w →
  chain w ≠ [] ∧ is_Some (get_latest_block w) ∧ is_Some (is_chain_valid w)
  ∧ ∀ r, is_Some (heap w !! r) → is_Some (add_block w r).
Proof.
  intros Hreach. destruct (reach_nonempty_allocated w Hreach) as [Hne Halloc].
  split_and!; [done | | |].
  - unfold get_latest_block. destruct (last (chain w)) as [l|] eqn:Hl.
    + cbn. apply Halloc. by eapply last_Some_elem_of.
    + by apply last_None in Hl.
  - unfold is_chain_valid. destruct (chain w) as [|g rest] eqn:Hchain; [done|].
    apply valid_from_returns. intros x Hx. apply Halloc. by rewrite Hchain.
  - intros r Hr. by apply add_block_returns.
Qed.

Lemma basic_calls_never_raise_witness :
  from_option (λ w, is_Some (is_chain_valid w) ∧ is_Some (add_block w 2%nat)) False
    (run any_blockb 1 1700000000 added_twice).
Proof.
  assert (is_Some (run any_blockb 1 1700000000 added_twice)) as [w Hrun]
    by (vm_compute; eexists; reflexivity).
  assert (is_Some (w ← run any_blockb 1 1700000000 added_twice; heap w !! 2%nat))
    as Hlive by (vm_compute; eexists; reflexivity).
  rewrite Hrun in Hlive |- *. cbn in Hlive |- *.
  destruct (basic_calls_never_raise w (run_reach _ _ _ _ _ _ any_blockb_ok Hrun))
    as (_ & _ & Hvalid & Hadd).
  split; [exact Hvalid | exact (Hadd 2%nat Hlive)].
Defined.

Lemma good_from_current h rest : ∀ g r,
  good_from h g rest → r ∈ rest →
  ∃ cb, h !! r = Some cb
        ∧ hash cb = calculate_hash (index cb) (previous_hash cb) (timestamp cb) (data cb).
Proof.
  induction rest as [|c rest IH]; intros g r Hgood Hr; [by apply elem_of_nil in Hr|].
  destruct Hgood as [(pb & cb & _ & Hcb & Hhash & _) Hrest].
  apply elem_of_cons in Hr as [->|Hr]; [by exists cb | by eapply IH].
Qed.

Lemma good_from_allocated h rest : ∀ g x,
  rest ≠ [] → good_from h g rest → x ∈ g :: rest → is_Some (h !! x).
Proof.
  induction rest as [|c rest IH]; intros g x Hne Hgood Hx; [done|].
  destruct Hgood as [(pb & cb & Hpb & Hcb & _) Hrest].
  apply elem_of_cons in Hx as [->|Hx]; [done|].
  destruct rest as [|c' rest'].
  - apply list_elem_of_singleton in Hx as ->. done.
  - by apply (IH c).
Qed.

(** X3. Tampering is caught unless the digest collides: on a chain that
    validates, overwriting the fields of a block after the first while
    keeping its stored [hash] makes [is_chain_valid()] return [False],
    whenever the new fields have another digest than the old ones. *)
Theorem tampering_detected (w : world) (r : loc) (b b' : Block) :
  is_chain_valid w = Some true →
  r ∈ tail (chain w) →
  heap w !! r = Some b →
  hash b' = hash b →
  calculate_hash (index b') (previous_hash b') (timestamp b') (data b')
    ≠ calculate_hash (index b) (previous_hash b) (timestamp b) (data b) →
  is_chain_valid {| heap := <[r := b']> (heap w); chain := chain w |} = Some false.
Proof.
  unfold is_chain_valid. cbn [heap chain].
  destruct (chain w) as [|g rest]; [intros _ Hr; by apply elem_of_nil in Hr|].
  cbn [tail]. intros Hvalid Hr Hb Hhash Hdigest.
  apply valid_from_true in Hvalid.
  destruct (valid_from_returns (<[r := b']> (heap w)) rest g) as [v Hv].
  { intros x Hx. destruct (decide (r = x)) as [->|Hrx]; [by rewrite lookup_insert_eq|].
    rewrite lookup_insert_ne by done.
    eapply good_from_allocated; [|done..]. intros ->. by apply elem_of_nil in Hr. }
  rewrite Hv. destruct v; [|done]. exfalso.
  apply valid_from_true in Hv.
  destruct (good_from_current _ _ _ _ Hvalid Hr) as (cb & Hcb & Hold).
  destruct (good_from_current _ _ _ _ Hv Hr) as (cb' & Hcb' & Hnew).
  rewrite lookup_insert_eq in Hcb'. injection Hcb' as <-.
  rewrite Hb in Hcb. injection Hcb as <-. congruence.
Qed.

Lemma tampering_detected_witness :
  (w ← run off_chainb 1 1700000000 demo;
   b ← heap w !! 2%nat;
   is_chain_valid
     {| heap := <[2%nat := mkBlock (index b) (previous_hash b) (timestamp b)
                             "This is block 1, edited" (hash b)]> (heap w);
        chain := chain w |}) = Some false.
Proof.
  assert (is_Some (run off_chainb 1 1700000000 demo)) as [w Hrun]
    by (vm_compute; eexists; reflexivity).
  assert (is_Some (w ← run off_chainb 1 1700000000 demo; heap w !! 2%nat)) as Hlive
    by (vm_compute; eexists; reflexivity).
  assert ((w ← run off_chainb 1 1700000000 demo; Some (bool_decide (2%nat ∈ tail (chain w))))
          = Some true) as Htail by (vm_compute; reflexivity).
  assert ((w ← run off_chainb 1 1700000000 demo; b ← heap w !! 2%nat;
           Some (String.eqb
                   (calculate_hash (index b) (previous_hash b) (timestamp b)
                      "This is block 1, edited")
                   (calculate_hash (index b) (previous_hash b) (timestamp b) (data b))))
          = Some false) as Hdigest by (vm_compute; reflexivity).
  rewrite Hrun in Hlive, Htail, Hdigest |- *. cbn in Hlive, Htail, Hdigest |- *.
  destruct Hlive as [b Hb]. rewrite Hb in Hdigest |- *. cbn in Hdigest |- *.
  injection Htail as Htail. apply bool_decide_eq_true in Htail.
  injection Hdigest as Hdigest. apply String.eqb_neq in Hdigest.
  apply (tampering_detected w 2%nat b); [|exact Htail|exact Hb|reflexivity|exact Hdigest].
  apply in_order_valid, off_chain_in_order.
  exact (run_reach _ _ _ _ _ _ off_chainb_ok Hrun).
Defined.

Lemma check_pair_stored_hash h g gb gb' p c :
  h !! g = Some gb → hash gb' = hash gb → c ≠ g →
  check_pair (<[g := gb']> h) p c = check_pair h p c.
Proof.
  intros Hg Hhash Hc. unfold check_pair.
  rewrite (lookup_insert_ne h g c) by congruence.
  destruct (h !! c) as [cb|]; [|done]. cbn.
  destruct (decide (g = p)) as [<-|Hp].
  - rewrite lookup_insert_eq, Hg. cbn. by rewrite Hhash.
  - by rewrite lookup_insert_ne.
Qed.

Lemma valid_from_stored_hash h g gb gb' rest : ∀ p,
  h !! g = Some gb → hash gb' = hash gb → g ∉ rest →
  valid_from (<[g := gb']> h) p rest = valid_from h p rest.
Proof.
  induction rest as [|c rest IH]; intros p Hg Hhash Hnotin; cbn; [done|].
  apply not_elem_of_cons in Hnotin as [Hc Hrest].
  rewrite (check_pair_stored_hash h g gb gb') by (done || congruence).
  destruct (check_pair h p c) as [[|]|]; [|done..]. by apply IH.
Qed.

(** X4. The first block is never validated: of the genesis block
    [is_chain_valid()] reads the stored [hash] and nothing else, so
    overwriting its index, timestamp, payload or [previous_hash] changes no
    verdict. *)
Theorem genesis_fields_unchecked (w : world) (g : loc) (rest : list loc) (gb gb' : Block) :
  chain w = g :: rest → g ∉ rest →
  heap w !! g = Some gb → hash gb' = hash gb →
  is_chain_valid {| heap := <[g := gb']> (heap w); chain := chain w |}
  = is_chain_valid w.
Proof.
  intros Hchain Hnotin Hg Hhash. unfold is_chain_valid. cbn [heap chain].
  rewrite Hchain. by eapply valid_from_stored_hash.
Qed.

Lemma genesis_fields_unchecked_witness :
  (w ← run off_chainb 1 1700000000 demo;
   is_chain_valid
     {| heap := <[1%nat := mkBlock 99 "tampered" 0 "Not the genesis block" "0"]> (heap w);
        chain := chain w |})
  = Some true.
Proof.
  assert (is_Some (run off_chainb 1 1700000000 demo)) as [w Hrun]
    by (vm_compute; eexists; reflexivity).
  assert ((w ← run off_chainb 1 1700000000 demo;
           gb ← heap w !! 1%nat;
           Some (chain w, hash gb)) = Some ([1; 2; 3]%nat, "0")) as Hshape
    by (vm_compute; reflexivity).
  rewrite Hrun in Hshape |- *. cbn in Hshape |- *.
  destruct (heap w !! 1%nat) as [gb|] eqn:Hg; [|discriminate Hshape].
  cbn in Hshape. injection Hshape as Hchain Hhash.
  rewrite (genesis_fields_unchecked w 1%nat [2; 3]%nat gb); [| done | | done | by rewrite Hhash].
  - apply in_order_valid, off_chain_in_order.
    exact (run_reach _ _ _ _ _ _ off_chainb_ok Hrun).
  - intros Hin. apply elem_of_cons in Hin as [?|Hin]; [done|].
    apply list_elem_of_singleton in Hin. done.
Defined.

(** X5. [add_block] overwrites the [previous_hash] and [hash] a block was
    constructed with without reading them: whatever the caller put there,
    the outcome is the same (the block being another object than the latest
    one, whose [hash] is read). *)
Theorem add_block_ignores_given_hashes (w : world) (r : loc) (b : Block)
    (previous_hash' hash' : string) :
  heap w !! r = Some b → last (chain w) ≠ Some r →
  add_block
    {| heap := <[r := mkBlock (index b) previous_hash' (timestamp b) (data b) hash']> (heap w);
       chain := chain w |} r
  = add_block w r.
Proof.
  intros Hb Hlast. unfold add_block, get_latest_block. cbn [heap chain].
  destruct (last (chain w)) as [l|]; [|done]. cbn.
  rewrite (lookup_insert_ne (heap w) r l) by congruence.
  destruct (heap w !! l) as [latest|]; [|done]. cbn.
  rewrite lookup_insert_eq, Hb. cbn. by rewrite insert_insert_eq.
Qed.

Lemma add_block_ignores_given_hashes_witness :
  let w := new_Block (init 1 1700000000) 2 (mkBlock 1 "" 1700000001 "This is block 1" "") in
  add_block
    {| heap := <[2%nat := mkBlock 1 "anything" 1700000001 "This is block 1" "at all"]> (heap w);
       chain := chain w |} 2%nat
  = add_block w 2%nat.
Proof.
  cbv zeta.
  apply (add_block_ignores_given_hashes
           (new_Block (init 1 1700000000) 2 (mkBlock 1 "" 1700000001 "This is block 1" ""))
           2%nat (mkBlock 1 "" 1700000001 "This is block 1" "") "anything" "at all").
  - apply lookup_insert_eq.
  - cbn. discriminate.
Defined.

(** X6. After [add_block(b)], [get_latest_block()] is [b] with the index,
    timestamp and payload it was built with, the former latest block's
    [hash] as [previous_hash], and the digest of those four as [hash]; the
    chain is one longer and no other object has changed. *)
Theorem add_block_then_latest (w w' : world) (r : loc) :
  add_block w r = Some w' →
  ∃ latest b b',
    get_latest_block w = Some latest ∧ heap w !! r = Some b
    ∧ get_latest_block w' = Some b'
    ∧ index b' = index b ∧ timestamp b' = timestamp b ∧ data b' = data b
    ∧ previous_hash b' = hash latest
    ∧ hash b' = calculate_hash (index b) (hash latest) (timestamp b) (data b)
    ∧ chain w' = chain w ++ [r]
    ∧ ∀ x, x ≠ r → heap w' !! x = heap w !! x.
Proof.
  intros Hadd. apply add_block_inv in Hadd as (l & latest & b & Hl & Hlatest & Hb & ->).
  eexists latest, b, _. unfold get_latest_block. cbn [heap chain].
  rewrite Hl, last_snoc. cbn. rewrite Hlatest, lookup_insert_eq.
  split_and!; try done. intros x Hx. by rewrite lookup_insert_ne.
Qed.

Lemma add_block_then_latest_witness :
  ∃ w', add_block (new_Block (init 1 1700000000) 2
                     (mkBlock 1 "" 1700000001 "This is block 1" "")) 2%nat = Some w'
        ∧ (previous_hash <$> get_latest_block w') = Some "0".
Proof.
  destruct (add_block (new_Block (init 1 1700000000) 2
                         (mkBlock 1 "" 1700000001 "This is block 1" "")) 2%nat)
    as [w'|] eqn:Hadd; [|discriminate Hadd].
  exists w'. split; [reflexivity|].
  destruct (add_block_then_latest _ _ _ Hadd)
    as (latest & b & b' & Hlatest & _ & Hnew & _ & _ & _ & Hprev & _).
  rewrite Hnew. cbn. rewrite Hprev. f_equal.
  cbn in Hlatest. rewrite lookup_insert_ne in Hlatest by done.
  rewrite lookup_singleton_eq in Hlatest. by injection Hlatest as <-.
Defined.

Definition is_add (c : call) : bool :=
  match c with Add _ => true | New _ _ => false end.

(** X7. The chain only grows, and only at its end: after any calls, the chain
    a caller saw before is a prefix of the chain afterwards, which is longer
    by the number of [add_block] calls. *)
Theorem chain_append_only (okb : world → loc → bool) (calls : list call) (w w' : world) :
  run_from okb w calls = Some w' →
  chain w `prefix_of` chain w'
  ∧ length (chain w') = (length (chain w) + length (List.filter is_add calls))%nat.
Proof.
  unfold run_from. revert w. induction calls as [|c calls IH]; intros w Hrun; cbn in Hrun.
  - injection Hrun as <-. split; [done|]. cbn. lia.
  - destruct (step okb w c) as [w1|] eqn:Hstep; [|by rewrite run_refused in Hrun].
    destruct (IH w1 Hrun) as [Hprefix Hlen].
    destruct c as [r b|r]; cbn in Hstep.
    + destruct (heap w !! r); [done|]. injection Hstep as <-. cbn in *.
      split; done.
    + destruct (okb w r); [|done].
      apply add_block_inv in Hstep as (l & latest & b & _ & _ & _ & ->). cbn in *.
      split.
      * etrans; [|exact Hprefix]. by apply prefix_app_r.
      * rewrite length_app in Hlen. cbn in *. lia.
Qed.

Lemma chain_append_only_witness :
  from_option (λ w, length (chain w) = 3%nat) False (run off_chainb 1 1700000000 demo).
Proof.
  assert (is_Some (run off_chainb 1 1700000000 demo)) as [w Hrun]
    by (vm_compute; eexists; reflexivity).
  rewrite Hrun. cbn [from_option].
  destruct (chain_append_only off_chainb demo (init 1 1700000000) w Hrun) as [_ Hlen].
  rewrite Hlen. vm_compute. reflexivity.
Defined.

End BasicMore.

(** ** [defi.py]: mining, validation and balances *)

Module DefiMore.
Import Defi MiningFacts BalanceFacts LedgerFacts.

Lemma substring_length_le (n : nat) : ∀ s : string,
  (String.length (String.substring 0 n s) ≤ String.length s)%nat.
Proof.
  induction n as [|n IH]; intros [|c s]; cbn; try lia. specialize (IH s). lia.
Qed.

Lemma substring_length_exact (n : nat) : ∀ s : string,
  (n ≤ String.length s)%nat → String.length (String.substring 0 n s) = n.
Proof.
  induction n as [|n IH]; intros [|c s] Hn; cbn in *; try lia.
  rewrite IH; lia.
Qed.

Lemma zeros_length (n : nat) :
  String.length (String.concat "" (replicate n "0")) = n.
Proof.
  induction n as [|n IH]; [done|]. rewrite concat_zeros. cbn. by rewrite IH.
Qed.

Lemma calculate_hash_length self : String.length (calculate_hash self) = 64%nat.
Proof. apply SHA256.hexdigest_length. Qed.

(** X8. The test of the mining loop, [h[:d] == '0' * d], for a difficulty
    [d >= 0]: it holds exactly when [h] has at least [d] characters and its
    first [d] characters are all ['0']. *)
Theorem difficulty_test_reads_prefix (d : nat) (h : string) :
  meets (Z.of_nat d) h = true ↔
  (d ≤ String.length h)%nat ∧ ∀ i, (i < d)%nat → String.get i h = Some "0"%char.
Proof. apply meets_leading_zeros. Qed.

(** No digest passes a difficulty above 64, nor one strictly between -64
    and 0. *)
Lemma meets_impossible (d : Z) (h : string) :
  String.length h = 64%nat → 64 < d ∨ -64 < d < 0 → meets d h = false.
Proof.
  intros Hlen Hd. unfold meets. apply String.eqb_neq. intros Heq.
  apply (f_equal String.length) in Heq. revert Heq.
  unfold Py.slice_to, Py.str_mul. rewrite zeros_length.
  destruct Hd as [Hd|Hd].
  - replace (0 <=? d) with true by (symmetry; apply Z.leb_le; lia).
    pose proof (substring_length_le (Z.to_nat d) h). lia.
  - replace (0 <=? d) with false by (symmetry; apply Z.leb_gt; lia).
    rewrite substring_length_exact by lia. lia.
Qed.

(** X9. [mine_block(difficulty)] loops forever when [difficulty] exceeds the 64
    characters of a digest, and when it lies strictly between -64 and 0;
    with [difficulty <= -64] it returns at once, like with 0. *)
Theorem mine_block_degenerate_difficulty (fuel : nat) (d : Z) (self : Block) :
  (64 < d ∨ -64 < d < 0 → mine_block fuel d self = None)
  ∧ (d ≤ -64 → mine_block (S fuel) d self = Some self).
Proof.
  split.
  - intros Hd. revert self. induction fuel as [|fuel IH]; intros self; [done|].
    cbn [mine_block]. rewrite meets_impossible; [apply IH | apply calculate_hash_length | done].
  - intros Hd. cbn [mine_block].
    assert (meets d (calculate_hash self) = true) as ->; [|done].
    unfold meets, Py.slice_to, Py.str_mul.
    replace (0 <=? d) with false by (symmetry; apply Z.leb_gt; lia).
    rewrite calculate_hash_length.
    replace (64 - Z.to_nat (- d))%nat with 0%nat by lia.
    replace (Z.to_nat d) with 0%nat by lia.
    by destruct (calculate_hash self).
Qed.

(** X10. Mining a block that was just mined at the same difficulty changes
    nothing: the first test of the loop passes. *)
Theorem mine_block_again (fuel fuel' : nat) (d : Z) (self mined : Block) :
  mine_block fuel d self = Some mined → mine_block (S fuel') d mined = Some mined.
Proof.
  intros Hrun. apply mine_block_only_proof in Hrun as (_ & _ & Hmeets).
  cbn [mine_block]. by rewrite Hmeets.
Qed.

Lemma mine_block_again_witness :
  (mined ← mine_block 3 2 HashFacts.candidate; mine_block 1 2 mined)
  = mine_block 3 2 HashFacts.candidate.
Proof.
  assert (is_Some (mine_block 3 2 HashFacts.candidate)) as [mined Hrun]
    by (vm_compute; eexists; reflexivity).
  rewrite Hrun. cbn [mbind option_bind].
  exact (mine_block_again 3 0 2 HashFacts.candidate mined Hrun).
Defined.

Lemma mine_pending_transactions_appends (fuel : nat) (bc bc' : Blockchain)
    (miner : string) (reward_id : N) (now : Z) :
  mine_pending_transactions fuel bc miner reward_id now = Some bc' →
  ∃ latest block,
    get_latest_block bc = Some latest
    ∧ chain bc' = chain bc ++ [block]
    ∧ pending_transactions bc' = []
    ∧ mining_reward bc' = mining_reward bc ∧ difficulty bc' = difficulty bc
    ∧ index block = Z.of_nat (length (chain bc))
    ∧ previous_hash block = hash latest
    ∧ timestamp block = now
    ∧ transactions block
      = pending_transactions bc ++ [mkTransaction reward_id None miner (mining_reward bc)]
    ∧ 0 ≤ proof block
    ∧ meets (difficulty bc) (calculate_hash block) = true
    ∧ hash block = digest_of (index block) (previous_hash block) (timestamp block)
                     (transactions block) 0.
Proof.
  unfold mine_pending_transactions, get_latest_block. intros Hrun.
  destruct (last (chain bc)) as [latest|] eqn:Hlast; [|done]. cbn in Hrun.
  destruct (mine_block _ _ _) as [block|] eqn:Hmine; [|done]. cbn in Hrun.
  injection Hrun as <-.
  apply mine_block_only_proof in Hmine as (Heq & Hle & Hmeets).
  exists latest, block. cbn [chain pending_transactions mining_reward difficulty].
  rewrite Heq in Hmeets |- *. cbn in Hle.
  split_and!; try done.
Qed.

(** X11. What [mine_pending_transactions] appends: a block numbered by the
    length of the chain, linked to the stored [hash] of the latest block,
    carrying the pending transactions in order with the reward last, whose
    [proof] is non-negative and whose recomputed digest passes the
    difficulty test, but whose stored [hash] is the digest taken at
    construction, with [proof = 0]. Nothing stays pending; the reward and
    the difficulty are kept. *)
Theorem mined_block_contract (fuel : nat) (bc bc' : Blockchain)
    (miner : string) (reward_id : N) (now : Z) :
  mine_pending_transactions fuel bc miner reward_id now = Some bc' →
  ∃ latest block,
    get_latest_block bc = Some latest
    ∧ chain bc' = chain bc ++ [block]
    ∧ pending_transactions bc' = []
    ∧ mining_reward bc' = mining_reward bc ∧ difficulty bc' = difficulty bc
    ∧ index block = Z.of_nat (length (chain bc))
    ∧ previous_hash block = hash latest
    ∧ timestamp block = now
    ∧ transactions block
      = pending_transactions bc ++ [mkTransaction reward_id None miner (mining_reward bc)]
    ∧ 0 ≤ proof block
    ∧ meets (difficulty bc) (calculate_hash block) = true
    ∧ hash block = digest_of (index block) (previous_hash block) (timestamp block)
                     (transactions block) 0.
Proof. apply mine_pending_transactions_appends. Qed.

Lemma mined_block_contract_witness :
  from_option (λ bc', ∃ block, last (chain bc') = Some block
                               ∧ hash block = digest_of (index block) (previous_hash block)
                                                (timestamp block) (transactions block) 0)
    False Integrity.mined_once.
Proof.
  assert (is_Some Integrity.mined_once) as [bc' Hrun] by (vm_compute; eexists; reflexivity).
  rewrite Hrun. cbn.
  destruct (mined_block_contract _ _ _ _ _ _ Hrun)
    as (latest & block & _ & Hchain & _ & _ & _ & _ & _ & _ & _ & _ & _ & Hhash).
  exists block. split; [|exact Hhash]. rewrite Hchain. apply last_snoc.
Defined.

Lemma valid_from_pairs rest : ∀ g,
  valid_from g rest = true ↔
  ∀ i pb cb, (g :: rest) !! i = Some pb → (g :: rest) !! (S i) = Some cb →
             hash cb = calculate_hash cb ∧ previous_hash cb = hash pb.
Proof.
  induction rest as [|c rest IH]; intros g; cbn [valid_from].
  - split; [|done]. intros _ [|i] pb cb Hp Hc; done.
  - unfold check_pair.
    destruct (String.eqb_spec (hash c) (calculate_hash c)) as [Hh|Hh]; cbn [negb].
    + destruct (String.eqb_spec (previous_hash c) (hash g)) as [Hp|Hp]; cbn [negb].
      * rewrite IH. split.
        -- intros Hrest [|i] pb cb Hpb Hcb.
           ++ injection Hpb as <-. by injection Hcb as <-.
           ++ by apply (Hrest i).
        -- intros Hall i pb cb Hpb Hcb. by apply (Hall (S i)).
      * split; [done|]. intros Hall. by destruct (Hall 0%nat g c eq_refl eq_refl).
    + split; [done|]. intros Hall. by destruct (Hall 0%nat g c eq_refl eq_refl).
Qed.

(** X12. On a ledger built by [add_transaction] and [mine_pending_transactions]
    the link test of [is_chain_valid()] never fails: the verdict is [True]
    exactly when every block after the first stores the digest of its own
    fields. *)
Theorem reachable_validity_is_hash_check (bc : Blockchain) :
  reachable bc →
  (is_chain_valid bc = true ↔
   ∀ i b, chain bc !! (S i) = Some b → hash b = calculate_hash b).
Proof.
  intros Hreach. destruct (reachable_structure bc Hreach) as (Hne & Hlink & _).
  unfold is_chain_valid. destruct (chain bc) as [|g rest] eqn:Hchain; [done|].
  rewrite valid_from_pairs. unfold linked in Hlink. rewrite Hchain in Hlink. split.
  - intros Hall i b Hb.
    destruct ((g :: rest) !! i) as [pb|] eqn:Hpb.
    + by destruct (Hall i pb b Hpb Hb).
    + apply lookup_ge_None in Hpb. apply lookup_lt_Some in Hb. lia.
  - intros Hall i pb cb Hpb Hcb. split; [by apply (Hall i) | by apply (Hlink i)].
Qed.

Lemma reachable_validity_is_hash_check_witness :
  from_option (λ bc, ∃ b, chain bc !! 1%nat = Some b ∧ hash b ≠ calculate_hash b)
    False Integrity.mined_once.
Proof.
  assert (is_Some Integrity.mined_once) as [bc Hrun] by (vm_compute; eexists; reflexivity).
  assert ((bc ← Integrity.mined_once; Some (is_chain_valid bc, length (chain bc)))
          = Some (false, 2%nat)) as Hfalse by (vm_compute; reflexivity).
  rewrite Hrun in Hfalse |- *. cbn in Hfalse |- *. injection Hfalse as Hfalse Hlen.
  destruct (chain bc !! 1%nat) as [b|] eqn:Hb.
  - exists b. split; [done|]. intros Hhash.
    assert (is_chain_valid bc = true); [|congruence].
    apply (reachable_validity_is_hash_check bc (Integrity.mined_once_reachable bc Hrun)).
    intros [|i] b' Hb'; [congruence|].
    apply lookup_lt_Some in Hb'. lia.
  - apply lookup_ge_None in Hb. lia.
Defined.

(** X15. A transaction counts towards a balance only once it is mined:
    [add_transaction] changes no balance, and [mine_pending_transactions]
    changes each balance by what the pending transactions move to and from
    the address, plus the reward for the miner. *)
Theorem balances_change_by_mining (fuel : nat) (bc bc' : Blockchain)
    (miner : string) (reward_id : N) (now : Z) (tx : Transaction) (address : string) :
  get_balance_of_address (add_transaction bc tx) address = get_balance_of_address bc address
  ∧ (mine_pending_transactions fuel bc miner reward_id now = Some bc' →
     get_balance_of_address bc' address
     = get_balance_of_address bc address
       + Zsum (delta address <$> pending_transactions bc)
       + (if String.eqb miner address then mining_reward bc else 0)).
Proof.
  split; [reflexivity|]. intros Hrun.
  apply mine_pending_transactions_inv in Hrun
    as (latest & block & _ & Hchain & _ & _ & _ & _ & _ & Htxs).
  rewrite !balance_as_sum. unfold all_transactions.
  rewrite Hchain, bind_app, fmap_app, Zsum_app.
  change ([block] ≫= transactions) with (transactions block ++ []).
  rewrite app_nil_r, Htxs, fmap_app, Zsum_app.
  rewrite fmap_cons, fmap_nil, Zsum_cons.
  unfold delta at 3. cbn [recipient sender amount].
  rewrite bool_decide_eq_false_2 by done. unfold Zsum at 3. cbn [foldr]. lia.
Qed.

(** X16. An address that is neither the sender nor the recipient of any
    transaction on the chain has balance 0; on a fresh ledger that is every
    address. *)
Theorem unknown_address_balance (bc : Blockchain) (address : string) :
  (address ∉ addresses bc → get_balance_of_address bc address = 0)
  ∧ ∀ now, get_balance_of_address (init now) address = 0.
Proof.
  split; [|reflexivity]. intros Hnotin. rewrite balance_as_sum.
  assert (∀ t, t ∈ all_transactions bc → delta address t = 0) as Hzero.
  { intros t Ht. unfold delta.
    assert (address ∉ parties t) as Hparty.
    { intros Hin. apply Hnotin, elem_of_list_to_set, list_elem_of_bind. eauto. }
    unfold parties in Hparty.
    destruct (String.eqb_spec (recipient t) address) as [Hr|Hr].
    - exfalso. apply Hparty. rewrite <- Hr.
      destruct (sender t); [apply list_elem_of_further|]; apply list_elem_of_here.
    - destruct (bool_decide_reflect (sender t = Some address)) as [Hs|Hs]; [|lia].
      exfalso. apply Hparty. rewrite Hs. apply list_elem_of_here. }
  induction (all_transactions bc) as [|t txs IH]; [done|].
  rewrite fmap_cons, Zsum_cons, Hzero, IH; [done | | apply list_elem_of_here].
  intros t' Ht'. by apply Hzero, list_elem_of_further.
Qed.

(** X18. [proof_of_work] run on the block [mine_pending_transactions] has just
    appended, on the resulting ledger, returns that block's [proof] and
    leaves the block as it is: both searches start from 0 at the same
    difficulty. *)
Theorem proof_of_work_confirms_mining (fuel : nat) (bc bc' : Blockchain)
    (miner : string) (reward_id : N) (now : Z) (block : Block) :
  mine_pending_transactions fuel bc miner reward_id now = Some bc' →
  get_latest_block bc' = Some block →
  proof_of_work fuel bc' block = Some (block, proof block).
Proof.
  unfold mine_pending_transactions, get_latest_block. intros Hrun Hlatest.
  destruct (last (chain bc)) as [latest|] eqn:Hlast; [|done].
  cbn [mbind option_bind] in Hrun.
  set (block0 := new_Block _ _ _ _ _ _) in Hrun.
  destruct (mine_block fuel (difficulty bc) block0) as [mined|] eqn:Hmine; [|done].
  cbn [mbind option_bind] in Hrun. injection Hrun as <-.
  cbn [chain] in Hlatest. rewrite last_snoc in Hlatest. injection Hlatest as <-.
  unfold proof_of_work. cbn [difficulty].
  pose proof (mine_block_only_proof _ _ _ _ Hmine) as (Heq & _ & _).
  assert (mkBlock (index mined) (previous_hash mined) (timestamp mined)
            (transactions mined) 0 (hash mined) = block0) as ->.
  { rewrite Heq. reflexivity. }
  by rewrite Hmine.
Qed.

Lemma proof_of_work_confirms_mining_witness :
  (bc' ← Integrity.mined_once; block ← get_latest_block bc'; proof_of_work 3 bc' block)
  = (bc' ← Integrity.mined_once; block ← get_latest_block bc'; Some (block, proof block)).
Proof.
  assert (is_Some Integrity.mined_once) as [bc' Hrun] by (vm_compute; eexists; reflexivity).
  assert (is_Some (bc' ← Integrity.mined_once; get_latest_block bc')) as Hlatest
    by (vm_compute; eexists; reflexivity).
  rewrite Hrun in Hlatest |- *. cbn [mbind option_bind] in Hlatest |- *.
  destruct Hlatest as [block Hblock]. rewrite Hblock. cbn [mbind option_bind].
  exact (proof_of_work_confirms_mining 3 _ bc' "M" _ _ block Hrun Hblock).
Defined.

(** [transaction.amount = ...] and the like, on transactions already in
    blocks: every transaction object is replaced by [f] of it, where [f]
    keeps the identity of the object. *)
Definition edit_transactions (f : Transaction → Transaction) (bc : Blockchain) : Blockchain :=
  mkBlockchain
    ((λ b, mkBlock (index b) (previous_hash b) (timestamp b) (f <$> transactions b)
             (proof b) (hash b)) <$> chain bc)
    (pending_transactions bc) (mining_reward bc) (difficulty bc).

Lemma calculate_hash_reads_identities (f : Transaction → Transaction) (b : Block) :
  (∀ t, tx_id (f t) = tx_id t) →
  calculate_hash (mkBlock (index b) (previous_hash b) (timestamp b) (f <$> transactions b)
                    (proof b) (hash b))
  = calculate_hash b.
Proof.
  intros Hid. unfold calculate_hash. cbn. apply HashFacts.digest_reads_identities.
  rewrite <- list_fmap_compose. apply list_fmap_ext. intros _ t _. apply Hid.
Qed.

Lemma valid_from_edit (f : Transaction → Transaction) rest : ∀ g,
  (∀ t, tx_id (f t) = tx_id t) →
  valid_from
    (mkBlock (index g) (previous_hash g) (timestamp g) (f <$> transactions g) (proof g) (hash g))
    ((λ b, mkBlock (index b) (previous_hash b) (timestamp b) (f <$> transactions b)
             (proof b) (hash b)) <$> rest)
  = valid_from g rest.
Proof.
  intros g Hid. revert g. induction rest as [|c rest IH]; intros g; [done|].
  rewrite fmap_cons. cbn [valid_from]. rewrite IH. unfold check_pair.
  rewrite calculate_hash_reads_identities by done. done.
Qed.

(** X19. [is_chain_valid()] does not see edits of transactions: changing the
    sender, the recipient or the amount of transactions that are already in
    blocks never changes its verdict. *)
Theorem is_chain_valid_blind_to_transactions (f : Transaction → Transaction)
    (bc : Blockchain) :
  (∀ t, tx_id (f t) = tx_id t) →
  is_chain_valid (edit_transactions f bc) = is_chain_valid bc.
Proof.
  intros Hid. unfold is_chain_valid, edit_transactions. cbn [chain].
  destruct (chain bc) as [|g rest]; [done|]. rewrite fmap_cons. by apply valid_from_edit.
Qed.

Lemma is_chain_valid_blind_to_transactions_witness :
  is_chain_valid
    (edit_transactions (λ t, mkTransaction (tx_id t) (Some "thief") "thief" 1000000)
       (LedgerFacts.scenario 1700000000 0x7f0000001000%N 0x7f0000001040%N))
  = is_chain_valid (LedgerFacts.scenario 1700000000 0x7f0000001000%N 0x7f0000001040%N).
Proof.
  apply (is_chain_valid_blind_to_transactions
           (λ t, mkTransaction (tx_id t) (Some "thief") "thief" 1000000)).
  intros t. reflexivity.
Defined.

(** X13. On every ledger built by [add_transaction] and
    [mine_pending_transactions] the reward is 50 and the difficulty 2; the
    first block carries no transaction, has [proof = 0] and stores its own
    digest; every later block has a non-negative [proof], a recomputed
    digest that starts with ["00"], and a reward of 50 as its last
    transaction. *)
Theorem reachable_blocks_shape (bc : Blockchain) :
  reachable bc →
  mining_reward bc = 50 ∧ difficulty bc = 2
  ∧ (∃ g, chain bc !! 0%nat = Some g ∧ transactions g = [] ∧ proof g = 0
          ∧ previous_hash g = "0" ∧ hash g = calculate_hash g)
  ∧ ∀ i b, chain bc !! (S i) = Some b →
      0 ≤ proof b ∧ meets 2 (calculate_hash b) = true
      ∧ ∃ txs reward_id miner,
          transactions b = txs ++ [mkTransaction reward_id None miner 50].
Proof.
  induction 1 as [now | bc tx _ IH | bc fuel miner rid now bc' _ IH Hmine].
  - split_and!; [done | done | by eexists | intros i b Hb; by destruct i].
  - exact IH.
  - destruct IH as (Hreward & Hdiff & (g & Hg & Hgenesis) & Hlater).
    apply mine_pending_transactions_appends in Hmine
      as (latest & block & _ & Hchain & _ & Hr & Hd & _ & _ & _ & Htxs & Hproof & Hmeets & _).
    rewrite Hr, Hd, Hchain. split_and!; [done | done | |].
    + exists g. split; [|done]. rewrite lookup_app_l; [done|].
      by apply lookup_lt_Some in Hg.
    + intros i b Hb. apply lookup_snoc_Some in Hb as [[_ Hb]|[_ <-]]; [by apply (Hlater i)|].
      rewrite Hdiff in Hmeets. rewrite Hreward in Htxs. split_and!; [done | done |].
      by eexists _, _, _.
Qed.

Lemma reachable_blocks_shape_witness :
  from_option (λ bc, mining_reward bc = 50 ∧ difficulty bc = 2) False Integrity.mined_once.
Proof.
  assert (is_Some Integrity.mined_once) as [bc Hrun] by (vm_compute; eexists; reflexivity).
  rewrite Hrun. cbn.
  destruct (reachable_blocks_shape bc (Integrity.mined_once_reachable bc Hrun))
    as (Hreward & Hdiff & _).
  split; [exact Hreward | exact Hdiff].
Defined.

Lemma add_transactions_pending (txs : list Transaction) : ∀ bc,
  foldl add_transaction bc txs
  = mkBlockchain (chain bc) (pending_transactions bc ++ txs) (mining_reward bc) (difficulty bc).
Proof.
  induction txs as [|tx txs IH]; intros bc; cbn [foldl].
  - rewrite app_nil_r. by destruct bc.
  - rewrite IH. unfold add_transaction. cbn. by rewrite <- app_assoc.
Qed.

(** X14. Transactions are mined in the order they were submitted:
    [mine_pending_transactions] after a run of [add_transaction] calls
    appends one block that carries what was pending before, then the
    submitted transactions in order, then the reward. *)
Theorem transactions_mined_in_order (fuel : nat) (bc bc' : Blockchain)
    (txs : list Transaction) (miner : string) (reward_id : N) (now : Z) :
  mine_pending_transactions fuel (foldl add_transaction bc txs) miner reward_id now = Some bc' →
  ∃ block,
    chain bc' = chain bc ++ [block]
    ∧ transactions block
      = pending_transactions bc ++ txs
        ++ [mkTransaction reward_id None miner (mining_reward bc)]
    ∧ pending_transactions bc' = [].
Proof.
  rewrite add_transactions_pending. intros Hrun.
  apply mine_pending_transactions_inv in Hrun
    as (latest & block & _ & Hchain & Hpending & _ & _ & _ & _ & Htxs).
  exists block. cbn in Hchain, Htxs. rewrite <- app_assoc in Htxs. done.
Qed.

Lemma transactions_mined_in_order_witness :
  from_option
    (λ bc', ∃ block, chain bc' = [create_genesis_block 1700000000; block]
                     ∧ tx_id <$> transactions block
                       = [0x7f0000001000; 0x7f0000001040; 0x7f0000001080]%N)
    False
    (mine_pending_transactions 3
       (foldl add_transaction (init 1700000000)
          [mkTransaction 0x7f0000001000%N (Some "A") "B" 100;
           mkTransaction 0x7f0000001040%N (Some "B") "A" 50])
       "M" 0x7f0000001080%N 1700000011).
Proof.
  assert (is_Some
            (mine_pending_transactions 3
               (foldl add_transaction (init 1700000000)
                  [mkTransaction 0x7f0000001000%N (Some "A") "B" 100;
                   mkTransaction 0x7f0000001040%N (Some "B") "A" 50])
               "M" 0x7f0000001080%N 1700000011)) as [bc' Hrun]
    by (vm_compute; eexists; reflexivity).
  rewrite Hrun. cbn [from_option].
  destruct (transactions_mined_in_order _ _ _ _ _ _ _ Hrun) as (block & Hchain & Htxs & _).
  exists block. split; [exact Hchain|]. rewrite Htxs. reflexivity.
Defined.

(** X21. A deposit followed by a borrow of the same amount gives back the pool
    it started from when that pool was non-negative; from a negative pool
    (reached by a negative deposit, which nothing refuses) the borrow is
    refused. *)
Theorem deposit_then_borrow (pool : LendingPool) (amount : Z) :
  (0 ≤ liquidity_pool pool → (borrow (deposit pool amount).1 amount).1 = pool)
  ∧ (liquidity_pool pool < 0 →
     borrow (deposit pool amount).1 amount
     = ((deposit pool amount).1, "Insufficient funds in the lending pool.")).
Proof.
  destruct pool as [p]. unfold deposit, borrow. cbn [fst liquidity_pool].
  destruct (Z.leb_spec amount (p + amount)); split; intros Hp; cbn in *; try lia.
  - f_equal. lia.
  - done.
Qed.

(** X20. On a ledger that validates, overwriting a block after the first while
    keeping its stored [hash] makes [is_chain_valid()] return [False]
    whenever the block's digest changes, as it does (short of a collision)
    when the index, the timestamp, the [previous_hash] or the [proof] is
    changed. *)
Theorem block_tampering_detected (bc : Blockchain) (i : nat) (b b' : Block) :
  is_chain_valid bc = true →
  chain bc !! (S i) = Some b →
  hash b' = hash b →
  calculate_hash b' ≠ calculate_hash b →
  is_chain_valid
    (mkBlockchain (<[S i := b']> (chain bc)) (pending_transactions bc)
       (mining_reward bc) (difficulty bc)) = false.
Proof.
  unfold is_chain_valid. cbn [chain]. intros Hvalid Hb Hhash Hdigest.
  destruct (chain bc) as [|g rest] eqn:Hchain; [done|].
  cbn [insert list_insert]. cbn in Hb.
  apply not_true_is_false. intros Hvalid'.
  pose proof (proj1 (valid_from_pairs _ _) Hvalid) as Hold_pairs.
  pose proof (proj1 (valid_from_pairs _ _) Hvalid') as Hnew_pairs.
  assert (is_Some ((g :: rest) !! i)) as [pb Hpb].
  { apply lookup_lt_is_Some. apply lookup_lt_Some in Hb. cbn. lia. }
  assert (is_Some ((g :: <[i := b']> rest) !! i)) as [pb' Hpb'].
  { apply lookup_lt_is_Some. apply lookup_lt_Some in Hb. cbn. rewrite length_insert. lia. }
  destruct (Hold_pairs i pb b Hpb Hb) as [Hold _].
  destruct (Hnew_pairs i pb' b' Hpb') as [Hnew _].
  { cbn. apply list_lookup_insert_eq. by apply lookup_lt_Some in Hb. }
  congruence.
Qed.

Lemma block_tampering_detected_witness :
  let g := create_genesis_block 1700000000 in
  let b := new_Block 1 (hash g) 1700000061 [] 0 None in
  is_chain_valid
    (mkBlockchain
       (<[1%nat := mkBlock 7 (previous_hash b) (timestamp b) (transactions b)
                     (proof b) (hash b)]> [g; b]) [] 50 2)
  = false.
Proof.
  cbv zeta.
  apply (block_tampering_detected
           (mkBlockchain
              [create_genesis_block 1700000000;
               new_Block 1 (hash (create_genesis_block 1700000000)) 1700000061 [] 0 None]
              [] 50 2) 0
           (new_Block 1 (hash (create_genesis_block 1700000000)) 1700000061 [] 0 None)).
  - vm_compute. reflexivity.
  - reflexivity.
  - reflexivity.
  - apply String.eqb_neq. vm_compute. reflexivity.
Defined.

(** X17. A transfer from an address to itself changes no balance. *)
Theorem self_transfer_is_neutral (address : string) (balance : Z) (trans : Transaction) :
  sender trans = Some (recipient trans) →
  apply_transaction address balance trans = balance.
Proof.
  intros Hself. unfold apply_transaction. rewrite Hself.
  destruct (String.eqb_spec (recipient trans) address) as [->|Hne].
  - rewrite bool_decide_eq_true_2 by done. lia.
  - rewrite bool_decide_eq_false_2; [done|]. congruence.
Qed.

Lemma self_transfer_is_neutral_witness :
  apply_transaction "A" 10 (mkTransaction 1%N (Some "A") "A" 100) = 10.
Proof.
  apply (self_transfer_is_neutral "A" 10 (mkTransaction 1%N (Some "A") "A" 100)).
  reflexivity.
Defined.

End DefiMore.
